(** * Protocol registry of the ESPHome remote component

    A shallow embedding of [homeassistant/components/esphome/protocols.py]:
    the validation helpers, the type and constraint catalog, the schema
    compiler, the command parser and the process-wide protocol cache.

    Python strings are modelled as [string], a sequence of code points
    below 256 (Latin-1); Python integers as [Z]; Python floats by the
    IEEE-754 data of [spec_float]; dictionaries as association lists in
    insertion order.  The mappings of the parsed file that the code
    changes in place are objects: the file comes with the record of which
    of its places hold one and the same mapping, and the schema compiler
    threads what these mappings hold. *)

From Stdlib Require Import ZArith List Bool Ascii String Lia PeanoNat.
From Stdlib Require Import Floats.SpecFloat.
Import ListNotations.

Open Scope string_scope.
Open Scope list_scope.

(** ** Python string primitives *)

Definition dquote : ascii := "034"%char.
Definition squote : ascii := "039"%char.
Definition backslash : ascii := "092"%char.
Definition newline : ascii := "010"%char.

(** [str.isspace] on one code point, which is also the class [\s] of a
    [str] pattern: TAB..CR, FS..US, SPACE, NEL and NBSP. *)
Definition isspace (c : ascii) : bool :=
  let n := nat_of_ascii c in
  (((9 <=? n) && (n <=? 13)) || ((28 <=? n) && (n <=? 32))
   || (n =? 133) || (n =? 160))%nat.

(** [str.lower] on one code point: A-Z and the Latin-1 capitals. *)
Definition lower_char (c : ascii) : ascii :=
  let n := nat_of_ascii c in
  if (((65 <=? n) && (n <=? 90))
      || ((192 <=? n) && (n <=? 222) && negb (n =? 215)))%nat
  then ascii_of_nat (n + 32) else c.

Fixpoint lower (s : string) : string :=
  match s with
  | EmptyString => EmptyString
  | String c s' => String (lower_char c) (lower s')
  end.

Fixpoint lstrip (s : string) : string :=
  match s with
  | EmptyString => EmptyString
  | String c s' => if isspace c then lstrip s' else s
  end.

Fixpoint rstrip (s : string) : string :=
  match s with
  | EmptyString => EmptyString
  | String c s' =>
      match rstrip s' with
      | EmptyString => if isspace c then EmptyString else String c EmptyString
      | r => String c r
      end
  end.

(** [s.strip()] *)
Definition strip (s : string) : string := rstrip (lstrip s).

(** [s[:n]] and [s[n:]] *)
Fixpoint take (n : nat) (s : string) : string :=
  match n, s with
  | S n', String c s' => String c (take n' s')
  | _, _ => EmptyString
  end.

Fixpoint drop (n : nat) (s : string) : string :=
  match n, s with
  | S n', String _ s' => drop n' s'
  | _, _ => s
  end.

(** [s.startswith(p)] *)
Definition startswith (p s : string) : bool := String.prefix p s.

(** ** The quoted-run fragment shared by both regular expressions

    [(?:(?!\1).|\\\1)*(?<!\\)\1] followed by a continuation [k] on what is
    left.  [q] is the quote captured by group 1 and [prev] the character
    just before the current position (for the look-behind).  The greedy
    star tries, in this order: one more character that is neither the quote
    nor a newline; a backslash followed by the quote; leaving the loop,
    which needs the quote here, not preceded by a backslash, and [k] to
    accept the remainder.  The result is the text between the quotes and
    the text after the closing quote. *)
Fixpoint quoted_run (k : string -> bool) (q prev : ascii) (s : string)
  : option (string * string) :=
  match s with
  | EmptyString => None
  | String c s' =>
      let alt1 :=
        if negb (Ascii.eqb c q) && negb (Ascii.eqb c newline)
        then match quoted_run k q c s' with
             | Some (body, rest) => Some (String c body, rest)
             | None => None
             end
        else None in
      match alt1 with
      | Some r => Some r
      | None =>
          let alt2 :=
            if Ascii.eqb c backslash
            then match s' with
                 | String c' s'' =>
                     if Ascii.eqb c' q
                     then match quoted_run k q c' s'' with
                          | Some (body, rest) =>
                              Some (String c (String c' body), rest)
                          | None => None
                          end
                     else None
                 | EmptyString => None
                 end
            else None in
          match alt2 with
          | Some r => Some r
          | None =>
              if Ascii.eqb c q && negb (Ascii.eqb prev backslash) && k s'
              then Some (EmptyString, s')
              else None
          end
      end
  end.

Definition is_quote (c : ascii) : bool :=
  Ascii.eqb c dquote || Ascii.eqb c squote.

(** The first alternative of [re_first]:
    optional white space, an opening quote (single or double, group 1),
    the quoted run up to the closing quote, optional white space.  The
    result is what is left of the text after it. *)
Definition quoted_token (s : string) : option string :=
  match lstrip s with
  | String q s' =>
      if is_quote q
      then match quoted_run (fun _ => true) q q s' with
           | Some (_, rest) => Some (lstrip rest)
           | None => None
           end
      else None
  | EmptyString => None
  end.

(** [re_first], anchored at the start of the text: a greedy repetition of
    [a quoted token, or else at most one character that is not the
    delimiter]; the repetition ends when an iteration matches the empty
    string.  The result is [m.end(0)]. *)
Fixpoint re_first_end (fuel : nat) (delimiter : ascii) (s : string) : nat :=
  match fuel with
  | O => 0
  | S fuel' =>
      match quoted_token s with
      | Some rest =>
          (String.length s - String.length rest)
          + re_first_end fuel' delimiter rest
      | None =>
          match s with
          | String c s' =>
              if Ascii.eqb c delimiter then 0
              else 1 + re_first_end fuel' delimiter s'
          | EmptyString => 0
          end
      end
  end.

Definition re_first (delimiter : ascii) (text : string) : nat :=
  re_first_end (S (String.length text)) delimiter text.

(** ** quoted_split *)

Fixpoint quoted_split_loop (fuel : nat) (delimiter : ascii) (text : string)
  (args : list string) : list string :=
  match fuel with
  | O => args
  | S fuel' =>
      match text with
      | EmptyString => args
      | _ =>
          let e := re_first delimiter text in
          let text' := drop (e + 1) text in
          let arg := strip (take e text) in
          quoted_split_loop fuel' delimiter text' (args ++ [arg])
      end
  end.

Definition quoted_split (text : string) (delimiter : ascii) : list string :=
  quoted_split_loop (String.length text) delimiter text [].

(** ** Python values, exceptions and results *)

Set Warnings "-register-all".

Inductive pyval : Type :=
| VNone
| VBool (b : bool)
| VInt (z : Z)
| VFloat (f : spec_float)
| VStr (s : string)
| VList (l : list pyval)
| VDict (d : list (string * pyval))
| VOpaque (tag : string).   (* a function or class object *)

(** An element of the path of a [vol.Invalid]: a dictionary key or a list
    index. *)
Inductive pathkey : Type :=
| PKey (k : string)
| PIdx (i : nat).

(** The message of a [vol.Invalid].  Messages built with f-strings are kept
    as the format together with the values it interpolates. *)
Inductive msg : Type :=
| MsgText (s : string)
| MsgMustBeString (v : pyval)
| MsgNoFraction (v : pyval)
| MsgCannotParse (s : string)
| MsgAtLeast (lo : Z)
| MsgAtMost (hi : Z)
| MsgAlternating (i j : nat)
| MsgBinaryDigit (c : ascii)
| MsgDefault (arg : string) (inner : msg)
| MsgNotDefined (proto : string)
| MsgExpectedMaximum (n : nat) (proto : string)
| MsgMalformatted (proto : string) (signature : string)
    (received : string * list pyval) (path : option pathkey) (inner : msg).

Inductive exn : Type :=
| Invalid (m : msg) (path : list pathkey)
| ValueError
| OverflowError
| TypeError
| KeyError
| AssertionError.

Inductive result (A : Type) : Type :=
| Ok (a : A)
| Raise (e : exn).
Arguments Ok {A} a.
Arguments Raise {A} e.

Definition bind {A B : Type} (r : result A) (f : A -> result B) : result B :=
  match r with
  | Ok a => f a
  | Raise e => Raise e
  end.

Declare Scope result_scope.
Delimit Scope result_scope with result.
Notation "x <- r ;; k" := (bind r (fun x => k))
  (at level 61, r at next level, right associativity) : result_scope.
Open Scope result_scope.

Definition is_ok {A : Type} (r : result A) : bool :=
  match r with Ok _ => true | Raise _ => false end.

(** A validator as voluptuous runs it: a callable from the raw value to
    the coerced value, or an exception. *)
Definition validator : Type := pyval -> result pyval.

(** What voluptuous does with a plain callable used as a schema: a
    [ValueError] becomes an [Invalid], and the path of an [Invalid] is
    prefixed with the place of the value. *)
Definition prepend (path : list pathkey) {A : Type} (r : result A) : result A :=
  match r with
  | Raise (Invalid m p) => Raise (Invalid m (path ++ p))
  | Raise ValueError => Raise (Invalid (MsgText "not a valid value") path)
  | _ => r
  end.

(** [vol.All] over a list of validators: each validator on the output of the one
    before; the first exception ends the chain. *)
Fixpoint vol_All (validators : list validator) (v : pyval) : result pyval :=
  match validators with
  | [] => Ok v
  | f :: rest => v' <- prepend [] (f v) ;; vol_All rest v'
  end.

(** A list schema [[f]], and every place where voluptuous visits each
    member of a container: an [Invalid] is recorded and the visit goes on,
    the first recorded one is raised at the end; any other exception
    leaves at once. *)
Fixpoint visit {A B : Type} (f : nat -> A -> result B) (i : nat) (l : list A)
  (first : option exn) (out : list B) : result (list B) :=
  match l with
  | [] => match first with
          | Some e => Raise e
          | None => Ok out
          end
  | a :: l' =>
      match f i a with
      | Ok b => visit f (S i) l' first (out ++ [b])
      | Raise (Invalid m p) =>
          visit f (S i) l'
            (match first with Some e => Some e | None => Some (Invalid m p) end)
            out
      | Raise e => Raise e
      end
  end.

Definition vol_list (f : validator) (v : pyval) : result pyval :=
  match v with
  | VList l =>
      out <- visit (fun i x => prepend [PIdx i] (f x)) 0 l None [] ;;
      Ok (VList out)
  | _ => Raise (Invalid (MsgText "expected a list") [])
  end.

(** ** Validation helpers *)

(** The search of the quote-stripping pattern of [string]: the whole value
    is one quoted run between optional white space; the result is group
    2, the text between the quotes. *)
Definition re_quote (s : string) : option string :=
  match lstrip s with
  | String q s' =>
      if is_quote q
      then match quoted_run
                   (fun rest => match lstrip rest with
                                | EmptyString => true
                                | _ => false
                                end) q q s' with
           | Some (body, _) => Some body
           | None => None
           end
      else None
  | EmptyString => None
  end.

Section Helpers.

(** [str(value)] of a value that is not a string, taken from Python. *)
Variable py_str : pyval -> string.

Definition string_ (value : pyval) : result pyval :=
  match value with
  | VDict _ | VList _ =>
      Raise (Invalid (MsgText "string value cannot be dictionary or list.") [])
  | VBool _ =>
      Raise (Invalid (MsgText
        "Auto-converted this value to boolean, please wrap the value in quotes.") [])
  | VStr s =>
      match re_quote s with
      | Some body => Ok (VStr body)
      | None => Ok (VStr s)
      end
  | VNone => Raise (Invalid (MsgText "string value is None") [])
  | _ => Ok (VStr (py_str value))
  end.

End Helpers.

Definition string_strict (value : pyval) : result string :=
  match value with
  | VStr s => Ok s
  | _ => Raise (Invalid (MsgMustBeString value) [])
  end.

(** *** The builtin [int]

    [int(s, base)] for base 10 and 16: white space around the literal is
    dropped, then an optional sign, for base 16 an optional [0x] prefix
    (after which one underscore may follow), then digits with at most one
    underscore between two digits. *)
Definition int_space (c : ascii) : bool :=
  let n := nat_of_ascii c in
  (((9 <=? n) && (n <=? 13)) || (n =? 32) || (n =? 133) || (n =? 160))%nat.

Fixpoint int_lstrip (s : string) : string :=
  match s with
  | EmptyString => EmptyString
  | String c s' => if int_space c then int_lstrip s' else s
  end.

Fixpoint int_rstrip (s : string) : string :=
  match s with
  | EmptyString => EmptyString
  | String c s' =>
      match int_rstrip s' with
      | EmptyString => if int_space c then EmptyString else String c EmptyString
      | r => String c r
      end
  end.

Definition digit_value (base : Z) (c : ascii) : option Z :=
  let n := Z.of_nat (nat_of_ascii c) in
  let d :=
    (if (48 <=? n) && (n <=? 57) then Some (n - 48)
     else if (97 <=? n) && (n <=? 122) then Some (n - 87)
     else if (65 <=? n) && (n <=? 90) then Some (n - 55)
     else None)%Z in
  match d with
  | Some k => if (k <? base)%Z then Some k else None
  | None => None
  end.

Definition underscore : ascii := "095"%char.

Fixpoint int_digits (base : Z) (s : string) (acc : Z) (after_digit : bool)
  : option Z :=
  match s with
  | EmptyString => if after_digit then Some acc else None
  | String c s' =>
      if Ascii.eqb c underscore
      then if after_digit then int_digits base s' acc false else None
      else match digit_value base c with
           | Some d => int_digits base s' (acc * base + d)%Z true
           | None => None
           end
  end.

Definition int_unsigned (base : Z) (s : string) : option Z :=
  let s1 :=
    if (base =? 16)%Z && (String.prefix "0x" s || String.prefix "0X" s)
    then match drop 2 s with
         | String c s' => if Ascii.eqb c underscore then s' else String c s'
         | EmptyString => EmptyString
         end
    else s in
  int_digits base s1 0%Z false.

(** [None] stands for the [ValueError]. *)
Definition py_int (s : string) (base : Z) : option Z :=
  match int_rstrip (int_lstrip s) with
  | String "+" s' => int_unsigned base s'
  | String "-" s' => option_map Z.opp (int_unsigned base s')
  | s' => int_unsigned base s'
  end.

(** *** Floats *)

(** [int(f)]: truncation toward zero; [OverflowError] on an infinity and
    [ValueError] on a NaN. *)
Definition int_of_float (f : spec_float) : result Z :=
  match f with
  | S754_zero _ => Ok 0%Z
  | S754_infinity _ => Raise OverflowError
  | S754_nan => Raise ValueError
  | S754_finite s m e =>
      let mag :=
        match e with
        | Zneg k => (Zpos m / 2 ^ Zpos k)%Z
        | _ => (Zpos m * 2 ^ e)%Z
        end in
      Ok (if s then (- mag)%Z else mag)
  end.

(** [int(f) == f] for a finite [f]: no fractional part. *)
Definition float_is_integral (f : spec_float) : bool :=
  match f with
  | S754_finite _ m (Zneg k) => (Zpos m mod 2 ^ Zpos k =? 0)%Z
  | _ => true
  end.

(** [f < 0] *)
Definition float_is_negative (f : spec_float) : bool :=
  match f with
  | S754_finite true _ _ | S754_infinity true => true
  | _ => false
  end.

(** *** integer, integer_range *)

Definition integer (value : pyval) : result pyval :=
  match value with
  | VInt _ | VBool _ => Ok value
  | VFloat f =>
      i <- int_of_float f ;;
      if float_is_integral f then Ok (VInt i)
      else Raise (Invalid (MsgNoFraction value) [])
  | _ =>
      s <- string_strict value ;;
      let value := lower s in
      let base := if startswith "0x" value then 16%Z else 10%Z in
      match py_int value base with
      | Some i => Ok (VInt i)
      | None => Raise (Invalid (MsgCannotParse value) [])
      end
  end.

(** The number a bool or an int compares as. *)
Definition as_int (v : pyval) : option Z :=
  match v with
  | VInt z => Some z
  | VBool b => Some (if b then 1 else 0)%Z
  | _ => None
  end.

(** [vol.Range(min, max)] with both bounds included, as [integer_range]
    builds it, on what [integer] returns. *)
Definition vol_Range (min max : option Z) (v : pyval) : result pyval :=
  match as_int v with
  | Some z =>
      match min with
      | Some lo =>
          if negb (lo <=? z)%Z then Raise (Invalid (MsgAtLeast lo) [])
          else match max with
               | Some hi =>
                   if negb (z <=? hi)%Z then Raise (Invalid (MsgAtMost hi) [])
                   else Ok v
               | None => Ok v
               end
      | None =>
          match max with
          | Some hi =>
              if negb (z <=? hi)%Z then Raise (Invalid (MsgAtMost hi) [])
              else Ok v
          | None => Ok v
          end
      end
  | None => Raise TypeError
  end.

Definition integer_range (min max : option Z) : validator :=
  vol_All [integer; vol_Range min max].

(** *** valid, coerce_list, alternating_signs, binary_string *)

Definition valid (value : pyval) : result pyval := Ok value.

Definition coerce_list (value : pyval) : result pyval :=
  match value with
  | VList _ => Ok value
  | VNone => Ok (VList [])
  | VStr s => Ok (VList (map VStr (quoted_split s ",")))
  | _ => Ok (VList [value])
  end.

(** [val < 0]; [None] stands for the [TypeError] of an unordered pair. *)
Definition is_negative (val : pyval) : option bool :=
  match val with
  | VInt z => Some (z <? 0)%Z
  | VBool _ => Some false
  | VFloat f => Some (float_is_negative f)
  | _ => None
  end.

Fixpoint alternating_signs_loop (i : nat) (last_negative : option bool)
  (l : list pyval) : result unit :=
  match l with
  | [] => Ok tt
  | val :: l' =>
      match is_negative val with
      | None => Raise TypeError
      | Some this_negative =>
          if negb (i =? 0)%nat
             && match last_negative with
                | Some b => Bool.eqb this_negative b
                | None => false
                end
          then Raise (Invalid (MsgAlternating i (i + 1)) [PIdx i])
          else alternating_signs_loop (S i) (Some this_negative) l'
      end
  end.

Definition alternating_signs (value : pyval) : result pyval :=
  match value with
  | VList l => _ <- alternating_signs_loop 0 None l ;; Ok value
  | _ => Raise AssertionError
  end.

Fixpoint binary_string_loop (s : string) : result unit :=
  match s with
  | EmptyString => Ok tt
  | String char s' =>
      if negb (Ascii.eqb char "0" || Ascii.eqb char "1")
      then Raise (Invalid (MsgBinaryDigit char) [])
      else binary_string_loop s'
  end.

Definition binary_string (py_str : pyval -> string) (value : pyval)
  : result pyval :=
  value <- string_ py_str value ;;
  match value with
  | VStr s => _ <- binary_string_loop s ;; Ok value
  | _ => Ok value
  end.

(** ** What is taken from Python and voluptuous

    The parts of the catalog that are objects of the voluptuous library or
    Python builtins on floats and on [str()] of arbitrary values. *)
Record python : Type := {
  (** [str(value)] of a value that is not a string *)
  py_str : pyval -> string;
  (** [vol.Coerce(float)] *)
  vol_Coerce_float : validator;
  (** the object [vol.Boolean] used as a validator *)
  vol_Boolean : validator;
  (** the object [vol.Url] used as a validator *)
  vol_Url : validator;
  (** the classes [vol.Range], [vol.Any] and [vol.Length] used as a
      validator without being called: what running it gives *)
  vol_class : string -> validator;
  (** what building a [vol.Schema] around a constraint raises, if
      anything: around the class itself ([None]), or around what calling
      the entry of [SCHEMA_VALIDATORS] with these positional and keyword
      arguments returned *)
  vol_compile : string -> option (list pyval * list (string * pyval))
                -> result unit;
  (** the result of calling an entry of [SCHEMA_VALIDATORS] with positional
      and keyword arguments, used as a validator; the call itself may
      raise *)
  py_call : string -> list pyval -> list (string * pyval) -> result validator
}.

(** ** Dictionaries in insertion order *)

Fixpoint dict_get {A : Type} (k : string) (d : list (string * A)) : option A :=
  match d with
  | [] => None
  | (k', a) :: d' => if String.eqb k k' then Some a else dict_get k d'
  end.

Definition dict_in {A : Type} (k : string) (d : list (string * A)) : bool :=
  match dict_get k d with Some _ => true | None => false end.

(** [d[k] = a] *)
Fixpoint dict_set {A : Type} (k : string) (a : A) (d : list (string * A))
  : list (string * A) :=
  match d with
  | [] => [(k, a)]
  | (k', a') :: d' =>
      if String.eqb k k' then (k', a) :: d' else (k', a') :: dict_set k a d'
  end.

(** [del d[k]] *)
Fixpoint dict_del {A : Type} (k : string) (d : list (string * A))
  : list (string * A) :=
  match d with
  | [] => []
  | (k', a') :: d' =>
      if String.eqb k k' then d' else (k', a') :: dict_del k d'
  end.

(** ** The type and constraint catalog *)

Section Catalog.

Variable env : python.

Definition uint64_max : Z := 18446744073709551615.

Definition CPP_TYPES (name : string) : option validator :=
  if String.eqb name "int" then
    Some (integer_range (Some (-2147483648)%Z) (Some 2147483647%Z))
  else if String.eqb name "int32_t" then
    Some (integer_range (Some (-2147483648)%Z) (Some 2147483647%Z))
  else if String.eqb name "uint" then
    Some (integer_range (Some 0%Z) (Some 4294967295%Z))
  else if String.eqb name "uint8_t" then
    Some (integer_range (Some 0%Z) (Some 255%Z))
  else if String.eqb name "uint16_t" then
    Some (integer_range (Some 0%Z) (Some 65535%Z))
  else if String.eqb name "uint32_t" then
    Some (integer_range (Some 0%Z) (Some 4294967295%Z))
  else if String.eqb name "uint64_t" then
    Some (integer_range (Some 0%Z) (Some uint64_max))
  else if String.eqb name "float" then Some (vol_Coerce_float env)
  else if String.eqb name "bool" then Some (vol_Boolean env)
  else if String.eqb name "string" then Some (string_ (py_str env))
  else None.

Definition CPP_TYPE_NAMES : list string :=
  ["int"; "int32_t"; "uint"; "uint8_t"; "uint16_t"; "uint32_t"; "uint64_t";
   "float"; "bool"; "string"].

Definition VALID_TYPES : list string :=
  CPP_TYPE_NAMES ++ map (fun t => (t ++ "[]")%string) CPP_TYPE_NAMES.

(** An entry of [SCHEMA_VALIDATORS]: the object used as a validator as it
    is, and the object called with arguments. *)
Record schema_validator : Type := {
  as_validator : validator;
  called : list pyval -> list (string * pyval) -> result validator
}.

Definition SCHEMA_VALIDATORS (cv : string) : option schema_validator :=
  if String.eqb cv "Range" || String.eqb cv "Any" || String.eqb cv "Length"
  then Some {| as_validator := vol_class env cv; called := py_call env cv |}
  else if String.eqb cv "proto_pronto"
  then Some {| as_validator := valid; called := py_call env cv |}
  else if String.eqb cv "alternating_signs"
  then Some {| as_validator := alternating_signs; called := py_call env cv |}
  else if String.eqb cv "binary_string"
  then Some {| as_validator := binary_string (py_str env);
               called := py_call env cv |}
  else None.

Definition SCHEMA_VALIDATOR_NAMES : list string :=
  ["Range"; "Any"; "Length"; "proto_pronto"; "alternating_signs";
   "binary_string"].

(** ** Protocol definitions *)

(** One argument of a protocol, as the catalog file gives it.  The keys
    [name], [type] and [desc] are required; a key that may be missing is an
    [option].  [default = Some VNone] is a default declared as null.  A
    value of this type is what the mapping holds; which mappings of the
    file are one object is recorded with the file, in [parsed_file]. *)
Record arg_def : Type := {
  arg_name : string;
  arg_type : string;
  arg_desc : pyval;
  arg_default : option pyval;
  arg_example : option pyval;
  arg_schema : option (list (string * pyval))
}.

Record proto_def : Type := {
  proto_desc : pyval;
  proto_type : pyval;
  proto_link : option (list pyval);
  proto_note : option pyval;
  proto_args : list arg_def
}.

Definition catalog : Type := list (string * proto_def).

(** The parsed file.  [yaml.safe_load] builds one object for a node and
    hands that object to every alias of its anchor and to every mapping
    that merges it, so two places of the file can hold one mapping.  The
    code changes a mapping of the file in place at one point only, the
    parameters of a constraint in [generate_arg_schema], so identity is
    recorded for the parameters: [anchor p j cv = Some n] says that the
    parameters of constraint [cv] of the argument at index [j] of protocol
    [p] are the object [n], the same object as at every other place with
    [n]; [None] says that the object is met at this place only.  Places
    of one object hold equal values in [file_value], which is the file as
    parsed.  A schema, an argument or a protocol that is shared shares the
    parameters below it.  Everything else of the file is taken by
    value. *)
Record parsed_file : Type := {
  file_value :> list (string * proto_def);
  anchor : string -> nat -> string -> option nat
}.

(** A file without alias or merge. *)
Definition unshared (value : catalog) : parsed_file :=
  {| file_value := value; anchor := fun _ _ _ => None |}.

(** The shared mappings changed so far, the latest change first, each
    with what it holds now. *)
Definition heap : Type := list (nat * pyval).

Fixpoint heap_get (n : nat) (h : heap) : option pyval :=
  match h with
  | [] => None
  | (m, a) :: h' => if Nat.eqb n m then Some a else heap_get n h'
  end.

(** What a place holds now: its object may have been changed through
    another place. *)
Definition deref (o : option nat) (a : pyval) (h : heap) : pyval :=
  match o with
  | Some n => match heap_get n h with Some a' => a' | None => a end
  | None => a
  end.

Definition update (o : option nat) (a : pyval) (h : heap) : heap :=
  match o with
  | Some n => (n, a) :: h
  | None => h
  end.

Definition set_schema (arg : arg_def) (sch : option (list (string * pyval)))
  : arg_def :=
  {| arg_name := arg_name arg; arg_type := arg_type arg;
     arg_desc := arg_desc arg; arg_default := arg_default arg;
     arg_example := arg_example arg; arg_schema := sch |}.

Definition set_default (arg : arg_def) (d : option pyval) : arg_def :=
  {| arg_name := arg_name arg; arg_type := arg_type arg;
     arg_desc := arg_desc arg; arg_default := d;
     arg_example := arg_example arg; arg_schema := arg_schema arg |}.

Definition set_args (p : proto_def) (args : list arg_def) : proto_def :=
  {| proto_desc := proto_desc p; proto_type := proto_type p;
     proto_link := proto_link p; proto_note := proto_note p;
     proto_args := args |}.

(** ** generate_arg_schema *)

(** [s[-2:]] and [s[:-2]] *)
Definition last2 (s : string) : string := drop (String.length s - 2) s.
Definition but_last2 (s : string) : string := take (String.length s - 2) s.

Definition type_validator (arg_type : string) : result validator :=
  if String.eqb (last2 arg_type) "[]" then
    match CPP_TYPES (but_last2 arg_type) with
    | Some t => Ok (vol_All [coerce_list; vol_list t])
    | None => Raise KeyError
    end
  else
    match CPP_TYPES arg_type with
    | Some t => Ok t
    | None => Raise KeyError
    end.

(** One turn of the loop over [arg["schema"].items()]: the validator to
    append, if any, and the parameters [a] as the turn leaves them in the
    dictionary ([del a["args"]] happens before the call). *)
Definition extra_validator (cv : string) (a : pyval)
  : result (option validator) * pyval :=
  match a with
  | VNone =>
      (match SCHEMA_VALIDATORS cv with
       | Some sv => Ok (Some (as_validator sv))
       | None => Raise KeyError
       end, a)
  | VList l =>
      (match SCHEMA_VALIDATORS cv with
       | Some sv => f <- called sv l [] ;; Ok (Some f)
       | None => Raise KeyError
       end, a)
  | VDict d =>
      let '(posargs, d') :=
        match dict_get "args" d with
        | Some (VList posargs) => (posargs, dict_del "args" d)
        | _ => ([], d)
        end in
      (match SCHEMA_VALIDATORS cv with
       | Some sv => f <- called sv posargs d' ;; Ok (Some f)
       | None => Raise KeyError
       end, VDict d')
  | _ => (Ok None, a)
  end.

(** The loop, on a schema whose mappings no other place holds: [val]
    grows at its end; the items already visited are kept with what the
    loop did to them.  An exception leaves the rest of the items as they
    were. *)
Fixpoint extra_validators (items : list (string * pyval)) (val : list validator)
  : result (list validator) * list (string * pyval) :=
  match items with
  | [] => (Ok val, [])
  | (cv, a) :: items' =>
      match extra_validator cv a with
      | (Ok o, a') =>
          let val' := match o with Some f => val ++ [f] | None => val end in
          let '(r, rest) := extra_validators items' val' in
          (r, (cv, a') :: rest)
      | (Raise e, a') => (Raise e, (cv, a') :: items')
      end
  end.

(** The compiled validator and the argument definition as the call leaves
    it, for an argument whose mappings no other place holds; such is the
    copy that the schema of the catalog file hands to [validate_default]. *)
Definition generate_arg_schema (arg : arg_def) : result validator * arg_def :=
  match type_validator (arg_type arg) with
  | Raise e => (Raise e, arg)
  | Ok type_cv =>
      let val := [type_cv] in
      let '(r, arg') :=
        match arg_schema arg with
        | Some items =>
            let '(r, items') := extra_validators items val in
            (r, set_schema arg (Some items'))
        | None => (Ok val, arg)
        end in
      (val <- r ;;
       match val with
       | [v] => Ok v
       | _ => Ok (vol_All val)
       end, arg')
  end.

(** *** generate_arg_schema on the objects of the parsed file

    [generate_proto_schema] calls [generate_arg_schema] on the parsed file
    itself, where the parameters of a constraint can be an object that
    other places hold too.  A turn of the loop then reads what the object
    holds now and leaves its change in the heap.  Along with each
    validator goes what [vol.Schema] will make of it when the schema of
    the protocol is built. *)

(** What building a schema around the validator of one turn raises, [a]
    being the parameters as the turn found them.  The functions of this
    module build; a class of voluptuous, and what a call returned, build
    as the library decides. *)
Definition constraint_compiles (cv : string) (a : pyval) : result unit :=
  match a with
  | VNone =>
      if String.eqb cv "Range" || String.eqb cv "Any" || String.eqb cv "Length"
      then vol_compile env cv None
      else Ok tt
  | VList l => vol_compile env cv (Some (l, []))
  | VDict d =>
      match dict_get "args" d with
      | Some (VList posargs) =>
          vol_compile env cv (Some (posargs, dict_del "args" d))
      | _ => vol_compile env cv (Some ([], d))
      end
  | _ => Ok tt
  end.

Fixpoint extra_validators_in (anchor : string -> option nat)
  (items : list (string * pyval)) (val : list validator) (built : result unit)
  (h : heap)
  : result (list validator * result unit) * list (string * pyval) * heap :=
  match items with
  | [] => (Ok (val, built), [], h)
  | (cv, a) :: items' =>
      let a0 := deref (anchor cv) a h in
      let '(r, a') := extra_validator cv a0 in
      let h' := update (anchor cv) a' h in
      match r with
      | Ok o =>
          let val' := match o with Some f => val ++ [f] | None => val end in
          let built' := (_ <- built ;; constraint_compiles cv a0) in
          let '(r', rest, h'') :=
            extra_validators_in anchor items' val' built' h' in
          (r', (cv, a') :: rest, h'')
      | Raise e => (Raise e, (cv, a') :: items', h')
      end
  end.

Definition generate_arg_schema_in (anchor : string -> option nat)
  (arg : arg_def) (h : heap)
  : result (validator * result unit) * arg_def * heap :=
  match type_validator (arg_type arg) with
  | Raise e => (Raise e, arg, h)
  | Ok type_cv =>
      let val := [type_cv] in
      let '(r, arg', h') :=
        match arg_schema arg with
        | Some items =>
            let '(r, items', h') :=
              extra_validators_in anchor items val (Ok tt) h in
            (r, set_schema arg (Some items'), h')
        | None => (Ok (val, Ok tt), arg, h)
        end in
      (vb <- r ;;
       match fst vb with
       | [v] => Ok (v, snd vb)
       | val => Ok (vol_All val, snd vb)
       end, arg', h')
  end.

(** ** validate_default

    The second member of [ARGS_SCHEMA]: [arg] is the dictionary that the
    first member built, with dictionaries of its own for the schema and
    for the parameters of each constraint, so what [generate_arg_schema]
    deletes here is deleted from that copy. *)
Definition validate_default (arg : arg_def) : result arg_def :=
  match arg_default arg with
  | None => Ok arg
  | Some default =>
      let '(r, arg') := generate_arg_schema arg in
      val <- r ;;
      match val default with
      | Ok d => Ok (set_default arg' (Some d))
      | Raise (Invalid m _) => Raise (Invalid (MsgDefault (arg_name arg') m) [])
      | Raise e => Raise e
      end
  end.

(** ** The schema of the catalog file *)

(** Two members of one dictionary: voluptuous validates both, raises the
    [Invalid] of the first, and lets any other exception through at
    once. *)
Definition both {A B : Type} (r1 : result A) (r2 : result B) : result (A * B) :=
  match r1, r2 with
  | Ok a, Ok b => Ok (a, b)
  | Ok _, Raise e => Raise e
  | Raise (Invalid m p), (Ok _ | Raise (Invalid _ _)) => Raise (Invalid m p)
  | Raise (Invalid _ _), Raise e => Raise e
  | Raise e, _ => Raise e
  end.

Definition optional {A B : Type} (f : A -> result B) (o : option A)
  : result (option B) :=
  match o with
  | Some a => b <- f a ;; Ok (Some b)
  | None => Ok None
  end.

Definition ident_start (c : ascii) : bool :=
  let n := nat_of_ascii c in
  (((65 <=? n) && (n <=? 90)) || ((97 <=? n) && (n <=? 122)) || (n =? 95))%nat.

Definition ident_char (c : ascii) : bool :=
  let n := nat_of_ascii c in
  ident_start c || ((48 <=? n) && (n <=? 57))%nat.

(** The rest of the identifier pattern; its [$] also matches before one
    final newline. *)
Fixpoint ident_rest (s : string) : bool :=
  match s with
  | EmptyString => true
  | String c s' =>
      if ident_char c then ident_rest s'
      else Ascii.eqb c newline && String.eqb s' EmptyString
  end.

Definition re_identifier (s : string) : bool :=
  match s with
  | String c s' => ident_start c && ident_rest s'
  | EmptyString => false
  end.

Definition valid_name (value : pyval) : result pyval :=
  s <- string_strict value ;;
  if re_identifier s then Ok (VStr s)
  else Raise (Invalid (MsgText "Invalid characters for an identifier name") []).

(** [vol.Any] over string literals *)
Definition vol_Any_literal (choices : list string) (value : pyval)
  : result pyval :=
  match value with
  | VStr s =>
      if existsb (String.eqb s) choices then Ok value
      else Raise (Invalid (MsgText "not a valid value") [])
  | _ => Raise (Invalid (MsgText "not a valid value") [])
  end.

(** [vol.Length(min=1)] on a list *)
Definition vol_Length_min1 {A : Type} (l : list A) : result (list A) :=
  match l with
  | [] => Raise (Invalid (MsgText "length of value must be at least 1") [])
  | _ => Ok l
  end.

Fixpoint has_duplicates (l : list string) : bool :=
  match l with
  | [] => false
  | x :: l' => existsb (String.eqb x) l' || has_duplicates l'
  end.

Definition unique_field_value (value : list arg_def) : result (list arg_def) :=
  if has_duplicates (map arg_name value)
  then Raise (Invalid (MsgText "contains duplicate items") [])
  else Ok value.

Definition SCHEMA_SCHEMA (value : list (string * pyval))
  : result (list (string * pyval)) :=
  visit (fun _ '(cv, a) =>
           if existsb (String.eqb cv) SCHEMA_VALIDATOR_NAMES
           then match a with
                | VList _ | VDict _ | VNone => Ok (cv, a)
                | _ => Raise (Invalid (MsgText "not a valid value") [PKey cv])
                end
           else Raise (Invalid (MsgText "extra keys not allowed") [PKey cv]))
        0 value None [].

Definition ARGS_SCHEMA (arg : arg_def) : result arg_def :=
  checked <-
    both (prepend [PKey "name"] (valid_name (VStr (arg_name arg))))
   (both (prepend [PKey "type"] (vol_Any_literal VALID_TYPES (VStr (arg_type arg))))
   (both (prepend [PKey "desc"] (string_ (py_str env) (arg_desc arg)))
   (both (prepend [PKey "default"] (optional valid (arg_default arg)))
   (both (prepend [PKey "example"]
            (optional (string_ (py_str env)) (arg_example arg)))
         (prepend [PKey "schema"] (optional SCHEMA_SCHEMA (arg_schema arg))))))) ;;
  let '(_, (_, (desc, (default, (example, schema))))) := checked in
  validate_default
    {| arg_name := arg_name arg; arg_type := arg_type arg; arg_desc := desc;
       arg_default := default; arg_example := example; arg_schema := schema |}.

Definition PROTOCOL_DEF_SCHEMA (p : proto_def) : result proto_def :=
  checked <-
    both (prepend [PKey "desc"] (string_ (py_str env) (proto_desc p)))
   (both (prepend [PKey "type"]
            (vol_Any_literal ["IR"; "RF"; "IR/RF"] (proto_type p)))
   (both (prepend [PKey "link"]
            (optional (fun l => visit (fun i x => prepend [PIdx i] (vol_Url env x))
                                  0 l None [])
               (proto_link p)))
   (both (prepend [PKey "note"]
            (optional (string_ (py_str env)) (proto_note p)))
         (prepend [PKey "args"]
            (args <- visit (fun i a => prepend [PIdx i] (ARGS_SCHEMA a))
                       0 (proto_args p) None [] ;;
             args <- vol_Length_min1 args ;;
             unique_field_value args))))) ;;
  let '(desc, (type, (link, (note, args)))) := checked in
  Ok {| proto_desc := desc; proto_type := type; proto_link := link;
        proto_note := note; proto_args := args |}.

Definition PROTOCOLS_SCHEMA (value : catalog) : result catalog :=
  visit (fun _ '(name, p) =>
           match valid_name (VStr name) with
           | Ok _ =>
               p' <- prepend [PKey name] (PROTOCOL_DEF_SCHEMA p) ;;
               Ok (name, p')
           | Raise _ =>
               Raise (Invalid (MsgText "extra keys not allowed") [PKey name])
           end)
        0 value None [].

(** ** load_protocols

    The parsed catalog file is the argument.  The schema is run for its
    verdict; what it returns, a copy with the coerced values, is dropped,
    and the parsed file itself is the result. *)
Definition load_protocols (proto_yaml : parsed_file) : result parsed_file :=
  _ <- PROTOCOLS_SCHEMA proto_yaml ;;
  Ok proto_yaml.

(** ** generate_proto_schema *)

(** [vol.Required(name)] is a key without default,
    [vol.Optional(name, default=d)] one with. *)
Record schema_key : Type := {
  key_name : string;
  key_default : option pyval
}.

(** The schema of one protocol: the dictionary from key to argument
    validator, and the names for [dict_to_list]. *)
Record proto_schema : Type := {
  schema_items : list (schema_key * validator);
  schema_names : list string
}.

(** [schemas[proto_name][key] = val]: a key equal to one already there
    (same name) keeps the old key and takes the new validator. *)
Fixpoint schema_set (key : schema_key) (val : validator)
  (items : list (schema_key * validator)) : list (schema_key * validator) :=
  match items with
  | [] => [(key, val)]
  | (k, v) :: items' =>
      if String.eqb (key_name key) (key_name k) then (k, val) :: items'
      else (k, v) :: schema_set key val items'
  end.

Definition schemas_t : Type := list (string * proto_schema).

(** [vol.Schema(schemas[proto_name])] builds the validator of each key of
    the dictionary, in the order of the keys, and raises what the first
    of them raises: [built] has, per key, what building its validator
    raises. *)
Fixpoint build_schema (built : list (string * result unit)) : result unit :=
  match built with
  | [] => Ok tt
  | (_, Ok _) :: built' => build_schema built'
  | (_, Raise e) :: _ => Raise e
  end.

(** The loop over [proto_def["args"]], [j] being the index of the first
    of [args] in the protocol: the dictionary [schemas[proto_name]] with
    the list [names], and what building each validator will raise.  The
    second component is the list of arguments as the loop leaves it. *)
Fixpoint generate_args (anchor : nat -> string -> option nat) (j : nat)
  (args : list arg_def) (items : list (schema_key * validator))
  (names : list string) (built : list (string * result unit)) (h : heap)
  : result (proto_schema * list (string * result unit)) * list arg_def * heap :=
  match args with
  | [] => (Ok ({| schema_items := items; schema_names := names |}, built), [], h)
  | arg :: args' =>
      let key := {| key_name := arg_name arg; key_default := arg_default arg |} in
      let names := names ++ [arg_name arg] in
      match generate_arg_schema_in (anchor j) arg h with
      | (Ok (val, b), arg', h') =>
          let '(r, rest, h'') :=
            generate_args anchor (S j) args' (schema_set key val items) names
              (dict_set (arg_name arg) b built) h' in
          (r, arg' :: rest, h'')
      | (Raise e, arg', h') => (Raise e, arg' :: args', h')
      end
  end.

(** The loop over [protocols.items()]: the loop over the arguments, then
    [vol.All(vol.Schema(schemas[proto_name]), dict_to_list(names))]. *)
Fixpoint generate_protos (anchor : string -> nat -> string -> option nat)
  (protos : catalog) (schemas : schemas_t) (h : heap)
  : result schemas_t * catalog * heap :=
  match protos with
  | [] => (Ok schemas, [], h)
  | (proto_name, proto_def) :: protos' =>
      match generate_args (anchor proto_name) 0 (proto_args proto_def)
              [] [] [] h with
      | (Ok (sch, built), args', h') =>
          match build_schema built with
          | Ok _ =>
              let '(r, rest, h'') :=
                generate_protos anchor protos' (dict_set proto_name sch schemas)
                  h' in
              (r, (proto_name, set_args proto_def args') :: rest, h'')
          | Raise e =>
              (Raise e, (proto_name, set_args proto_def args') :: protos', h')
          end
      | (Raise e, args', h') =>
          (Raise e, (proto_name, set_args proto_def args') :: protos', h')
      end
  end.

(** What the file holds once the compiler has stopped: a change made to
    an object shows at every place of the object. *)
Definition refresh_arg (anchor : string -> option nat) (h : heap)
  (arg : arg_def) : arg_def :=
  match arg_schema arg with
  | Some items =>
      set_schema arg
        (Some (map (fun '(cv, a) => (cv, deref (anchor cv) a h)) items))
  | None => arg
  end.

Fixpoint refresh_args (anchor : nat -> string -> option nat) (h : heap)
  (j : nat) (args : list arg_def) : list arg_def :=
  match args with
  | [] => []
  | arg :: args' =>
      refresh_arg (anchor j) h arg :: refresh_args anchor h (S j) args'
  end.

Definition refresh (anchor : string -> nat -> string -> option nat) (h : heap)
  (protos : catalog) : catalog :=
  map (fun '(name, p) =>
         (name, set_args p (refresh_args (anchor name) h 0 (proto_args p))))
      protos.

(** The schemas, and what the definitions hold when the call returns or
    raises. *)
Definition generate_proto_schema (protocols : parsed_file)
  : result schemas_t * catalog :=
  let '(r, protos', h) := generate_protos (anchor protocols) protocols [] [] in
  (r, refresh (anchor protocols) h protos').

(** *** Running the schema of a protocol *)

Fixpoint find_key (name : string) (items : list (schema_key * validator))
  : option validator :=
  match items with
  | [] => None
  | (k, v) :: items' =>
      if String.eqb name (key_name k) then Some v else find_key name items'
  end.

(** The defaults of the keys missing from the mapping are added to it. *)
Fixpoint insert_defaults (items : list (schema_key * validator))
  (key_value_map : list (string * pyval)) : list (string * pyval) :=
  match items with
  | [] => key_value_map
  | (k, _) :: items' =>
      match key_default k with
      | Some d =>
          if dict_in (key_name k) key_value_map
          then insert_defaults items' key_value_map
          else insert_defaults items' (key_value_map ++ [(key_name k, d)])
      | None => insert_defaults items' key_value_map
      end
  end.

Fixpoint missing_required (items : list (schema_key * validator))
  (key_value_map : list (string * pyval)) : option string :=
  match items with
  | [] => None
  | (k, _) :: items' =>
      match key_default k with
      | None =>
          if dict_in (key_name k) key_value_map
          then missing_required items' key_value_map
          else Some (key_name k)
      | Some _ => missing_required items' key_value_map
      end
  end.

Fixpoint dict_to_list (keys : list string) (value : list (string * pyval))
  : result (list pyval) :=
  match keys with
  | [] => Ok []
  | k :: keys' =>
      match dict_get k value with
      | Some v => l <- dict_to_list keys' value ;; Ok (v :: l)
      | None => Raise KeyError
      end
  end.

(** [vol.All(vol.Schema(items), dict_to_list(names))] on a mapping from
    argument name to raw value. *)
Definition run_proto_schema (sch : proto_schema) (args : list (string * pyval))
  : result (list pyval) :=
  let key_value_map := insert_defaults (schema_items sch) args in
  out <- visit (fun _ '(key, value) =>
                  match find_key key (schema_items sch) with
                  | Some cvalue =>
                      cval <- prepend [PKey key] (cvalue value) ;;
                      Ok (key, cval)
                  | None =>
                      Raise (Invalid (MsgText "extra keys not allowed") [PKey key])
                  end)
               0 key_value_map None [] ;;
  match missing_required (schema_items sch) key_value_map with
  | Some k => Raise (Invalid (MsgText "required key not provided") [PKey k])
  | None => dict_to_list (schema_names sch) out
  end.

End Catalog.

(** ** The process-wide cache

    [PROTO_CACHE] is a dictionary with up to three keys; a key not yet set
    is [None].  Every function that touches the cache takes the cache and
    returns it along with its result or exception. *)
Record PROTO_CACHE_t : Type := {
  PROTO_DEF : option catalog;
  PROTO_SCHEMA : option schemas_t;
  VALID_PROTOCOLS : option (list string)
}.

Definition empty_cache : PROTO_CACHE_t :=
  {| PROTO_DEF := None; PROTO_SCHEMA := None; VALID_PROTOCOLS := None |}.

Definition M (A : Type) : Type := PROTO_CACHE_t -> result A * PROTO_CACHE_t.

Definition ret {A : Type} (a : A) : M A := fun c => (Ok a, c).
Definition raise {A : Type} (e : exn) : M A := fun c => (Raise e, c).
Definition lift {A : Type} (r : result A) : M A := fun c => (r, c).
Definition get : M PROTO_CACHE_t := fun c => (Ok c, c).
Definition put (c : PROTO_CACHE_t) : M unit := fun _ => (Ok tt, c).

Definition bindM {A B : Type} (m : M A) (f : A -> M B) : M B :=
  fun c =>
    match m c with
    | (Ok a, c') => f a c'
    | (Raise e, c') => (Raise e, c')
    end.

(** [try: m except vol.Invalid as err: handler(err)] *)
Definition try_except_Invalid {A : Type} (m : M A)
  (handler : msg -> list pathkey -> M A) : M A :=
  fun c =>
    match m c with
    | (Raise (Invalid msg path), c') => handler msg path c'
    | r => r
    end.

Declare Scope cache_scope.
Delimit Scope cache_scope with cache.
Notation "x <~ m ;; k" := (bindM m (fun x => k))
  (at level 61, m at next level, right associativity) : cache_scope.

(** A validated command: the protocol and the list of arguments. *)
Definition command_t : Type := (pyval * list pyval)%type.

Section Commands.

Variable env : python.

Open Scope cache_scope.

Definition validate_protocol_name (proto_name : pyval) : M string :=
  s <~ lift (string_strict proto_name) ;;
  let proto_name := lower s in
  cache <~ get ;;
  match PROTO_DEF cache with
  | None => raise (Invalid (MsgText "Protocols not initialized") [])
  | Some defs =>
      if dict_in proto_name defs then ret proto_name
      else raise (Invalid (MsgNotDefined proto_name) [])
  end.

Definition get_proto_def (proto_name : pyval) : M proto_def :=
  _ <~ validate_protocol_name proto_name ;;
  cache <~ get ;;
  match PROTO_DEF cache, proto_name with
  | Some defs, VStr s =>
      match dict_get s defs with
      | Some d => ret d
      | None => raise KeyError
      end
  | _, _ => raise KeyError
  end.

(** [s.replace("_t", "")] *)
Fixpoint replace_t (s : string) : string :=
  match s with
  | String "_" (String "t" s') => replace_t s'
  | String c s' => String c (replace_t s')
  | EmptyString => EmptyString
  end.

(** [str(v)] inside an f-string *)
Definition format (v : pyval) : string :=
  match v with
  | VStr s => s
  | _ => py_str env v
  end.

Fixpoint join (sep : string) (l : list string) : string :=
  match l with
  | [] => EmptyString
  | [x] => x
  | x :: l' => (x ++ sep ++ join sep l')%string
  end.

Definition get_proto_signature (proto_name : pyval) : M string :=
  d <~ get_proto_def proto_name ;;
  let arg_def := proto_args d in
  let declaration :=
    format proto_name ::
    map (fun arg =>
           let name := (replace_t (arg_type arg) ++ " " ++ arg_name arg)%string in
           match arg_default arg with
           | Some default => ("<" ++ name ++ "?=" ++ format default ++ ">")%string
           | None => ("<" ++ name ++ ">")%string
           end) arg_def in
  ret (join ":" declaration).

(** The loop of [args_to_dict]: [result[proto_def["args"][i]["name"]] = arg] *)
Fixpoint args_to_dict_loop (declared : list arg_def) (args : list pyval)
  (result : list (string * pyval)) : list (string * pyval) :=
  match args, declared with
  | arg :: args', d :: declared' =>
      args_to_dict_loop declared' args' (dict_set (arg_name d) arg result)
  | _, _ => result
  end.

Definition args_to_dict (proto : pyval) (args : list pyval)
  : M (list (string * pyval)) :=
  proto_def <~ get_proto_def proto ;;
  if (List.length (proto_args proto_def) <? List.length args)%nat
  then raise (Invalid (MsgExpectedMaximum (List.length (proto_args proto_def))
                         (format proto)) [])
  else ret (args_to_dict_loop (proto_args proto_def) args []).

Definition last_key (path : list pathkey) : option pathkey :=
  match rev path with
  | k :: _ => Some k
  | [] => None
  end.

Definition validate_command (command : command_t) : M command_t :=
  let '(protocol, args) := command in
  fun cache =>
    (* the schema of a command: both keys are validated *)
    let '(r_protocol, cache1) := validate_protocol_name protocol cache in
    match both (prepend [PKey "protocol"] r_protocol)
               (prepend [PKey "args"] (vol_Length_min1 args)) with
    | Raise e => (Raise e, cache1)
    | Ok (protocol, args) =>
        try_except_Invalid
          (args <~ args_to_dict (VStr protocol) args ;;
           cache <~ get ;;
           match PROTO_SCHEMA cache with
           | Some schemas =>
               match dict_get protocol schemas with
               | Some sch =>
                   out <~ lift (run_proto_schema sch args) ;;
                   ret (VStr protocol, out)
               | None => raise KeyError
               end
           | None => raise KeyError
           end)
          (fun err_msg err_path =>
             signature <~ get_proto_signature (VStr protocol) ;;
             raise (Invalid (MsgMalformatted protocol signature
                               (protocol, args) (last_key err_path) err_msg) []))
          cache1
    end.

Definition validate_send_command (command : pyval) : M command_t :=
  command <~ lift (string_strict command) ;;
  let command_list := quoted_split command ":" in
  match command_list with
  | protocol :: ((_ :: _) as args) =>
      validate_command (VStr protocol, map VStr args)
  | _ =>
      raise (Invalid (MsgText
        "Command string needs to have at least a protocol and a parameter list") [])
  end.

(** [initialize], on the parsed catalog file. *)
Definition initialize (proto_yaml : parsed_file) : M unit :=
  defs <~ lift (load_protocols env proto_yaml) ;;
  cache <~ get ;;
  let '(r, defs') := generate_proto_schema env defs in
  (* the definitions in the cache are the object the generator worked on *)
  _ <~ put {| PROTO_DEF := Some defs'; PROTO_SCHEMA := PROTO_SCHEMA cache;
              VALID_PROTOCOLS := VALID_PROTOCOLS cache |} ;;
  schemas <~ lift r ;;
  cache <~ get ;;
  _ <~ put {| PROTO_DEF := PROTO_DEF cache; PROTO_SCHEMA := Some schemas;
              VALID_PROTOCOLS := VALID_PROTOCOLS cache |} ;;
  cache <~ get ;;
  put {| PROTO_DEF := PROTO_DEF cache; PROTO_SCHEMA := PROTO_SCHEMA cache;
         VALID_PROTOCOLS := option_map (map fst) (PROTO_DEF cache) |}.

End Commands.

(** ** A concrete catalog: the protocol [beep] *)

Definition beep_freq : arg_def :=
  {| arg_name := "freq"; arg_type := "uint16_t"; arg_desc := VStr "frequency";
     arg_default := None; arg_example := None; arg_schema := None |}.

Definition beep_duration : arg_def :=
  {| arg_name := "duration"; arg_type := "uint16_t"; arg_desc := VStr "duration";
     arg_default := Some (VInt 100); arg_example := None; arg_schema := None |}.

Definition beep_catalog : parsed_file :=
  unshared
    [("beep", {| proto_desc := VStr "beeper"; proto_type := VStr "IR";
                 proto_link := None; proto_note := None;
                 proto_args := [beep_freq; beep_duration] |})].

(** Stand-ins for the library objects, for running examples. *)
Definition demo_env : python :=
  {| py_str := fun _ => "?";
     vol_Coerce_float := fun v => Ok v;
     vol_Boolean := fun _ => Ok (VOpaque "function");
     vol_Url := fun _ => Ok (VOpaque "function");
     vol_class := fun cv _ =>
                    if String.eqb cv "Any" then Raise TypeError
                    else Raise (Invalid (MsgText "expected instance") []);
     vol_compile := fun cv params =>
                      match params with
                      | None =>
                          if String.eqb cv "Any" then Raise TypeError
                          else Ok tt
                      | Some _ => Ok tt
                      end;
     py_call := fun _ posargs _ =>
                  match posargs with
                  | [VInt lo; VInt hi] => Ok (vol_Range (Some lo) (Some hi))
                  | _ => Ok (fun v => Ok v)
                  end |}.

Definition beep_cache : PROTO_CACHE_t := snd (initialize demo_env beep_catalog empty_cache).

(** ** Example inputs *)

Definition dq : string := String dquote EmptyString.

(** The text [a,QbcQ,d] of three tokens, the second one between double
    quotes [Q] and holding a comma: a, then Q b , c Q, then d. *)
Definition quoted_example : string := ("a," ++ dq ++ "b,c" ++ dq ++ ",d")%string.

(** The integer entries of [CPP_TYPES] with their bounds. *)
Definition INTEGER_TYPES : list (string * Z * Z) :=
  [("int", -2147483648, 2147483647); ("int32_t", -2147483648, 2147483647);
   ("uint", 0, 4294967295); ("uint8_t", 0, 255); ("uint16_t", 0, 65535);
   ("uint32_t", 0, 4294967295); ("uint64_t", 0, uint64_max)]%Z.

(** The binary64 floats 3.0 and 3.5: 53-bit mantissa, exponent -51. *)
Definition float_3_0 : spec_float := S754_finite false 6755399441055744 (-51).
Definition float_3_5 : spec_float := S754_finite false 7881299347898368 (-51).

(** The catalog of [beep] with the name capitalized. *)
Definition Beep_catalog : parsed_file :=
  unshared (map (fun '(_, p) => ("Beep"%string, p)) beep_catalog).

(** The catalog of [beep] with the default of [duration] written as the
    string [0x64]. *)
Definition hex_duration : arg_def :=
  {| arg_name := "duration"; arg_type := "uint16_t"; arg_desc := VStr "duration";
     arg_default := Some (VStr "0x64"); arg_example := None;
     arg_schema := None |}.

Definition hex_catalog : parsed_file :=
  unshared
    [("beep"%string,
      {| proto_desc := VStr "beeper"; proto_type := VStr "IR";
         proto_link := None; proto_note := None;
         proto_args := [beep_freq; hex_duration] |})].



(** A protocol whose argument has a default and a constraint with
    positional parameters inside a keyword map. *)
Definition pulse_level : arg_def :=
  {| arg_name := "level"; arg_type := "uint8_t"; arg_desc := VStr "level";
     arg_default := Some (VInt 5); arg_example := None;
     arg_schema := Some [("Range"%string,
                          VDict [("args"%string, VList [VInt 0; VInt 10])])] |}.

Definition pulse_def : proto_def :=
  {| proto_desc := VStr "pulse"; proto_type := VStr "RF";
     proto_link := None; proto_note := None;
     proto_args := [pulse_level] |}.

Definition pulse_catalog : parsed_file := unshared [("pulse"%string, pulse_def)].

Definition hex_cache : PROTO_CACHE_t :=
  snd (initialize demo_env hex_catalog empty_cache).

(** Library objects whose constraints cannot be built, and a catalog with
    a constraint on an argument without default. *)
Definition refusing_env : python :=
  {| py_str := py_str demo_env;
     vol_Coerce_float := vol_Coerce_float demo_env;
     vol_Boolean := vol_Boolean demo_env;
     vol_Url := vol_Url demo_env;
     vol_class := vol_class demo_env;
     vol_compile := vol_compile demo_env;
     py_call := fun _ _ _ => Raise TypeError |}.

Definition plain_catalog : parsed_file :=
  unshared
    [("pulse"%string,
      {| proto_desc := VStr "pulse"; proto_type := VStr "RF";
         proto_link := None; proto_note := None;
         proto_args := [set_default pulse_level None] |})].

(** A protocol whose two arguments take the parameters of their
    constraint from one node of the file: the mapping is written once,
    under an anchor, for [level], and [width] has an alias of it. *)
Definition limits : pyval := VDict [("args"%string, VList [VInt 0; VInt 10])].

Definition shared_level : arg_def :=
  {| arg_name := "level"; arg_type := "uint8_t"; arg_desc := VStr "level";
     arg_default := None; arg_example := None;
     arg_schema := Some [("Range"%string, limits)] |}.

Definition shared_width : arg_def :=
  {| arg_name := "width"; arg_type := "uint8_t"; arg_desc := VStr "width";
     arg_default := None; arg_example := None;
     arg_schema := Some [("Range"%string, limits)] |}.

Definition shared_def : proto_def :=
  {| proto_desc := VStr "pulse"; proto_type := VStr "RF";
     proto_link := None; proto_note := None;
     proto_args := [shared_level; shared_width] |}.

Definition shared_catalog : parsed_file :=
  {| file_value := [("pulse"%string, shared_def)];
     anchor := fun p _ cv =>
                 if String.eqb p "pulse" && String.eqb cv "Range"
                 then Some 0 else None |}.

Definition shared_cache : PROTO_CACHE_t :=
  snd (initialize demo_env shared_catalog empty_cache).

(** A protocol whose argument declares the constraint [Any] with null
    for parameters, and no default. *)
Definition any_level : arg_def :=
  {| arg_name := "level"; arg_type := "uint8_t"; arg_desc := VStr "level";
     arg_default := None; arg_example := None;
     arg_schema := Some [("Any"%string, VNone)] |}.

Definition any_catalog : parsed_file :=
  unshared
    [("pulse"%string,
      {| proto_desc := VStr "pulse"; proto_type := VStr "RF";
         proto_link := None; proto_note := None;
         proto_args := [any_level] |})].

(** ** Auxiliary definitions of the proofs *)

Definition extend (d : ascii) (o : option (string * string))
  : option (string * string) :=
  match o with
  | Some (b, r) => Some (b, (r ++ String d "")%string)
  | None => None
  end.

Ltac break_hyp H :=
  repeat match type of H with
         | context [match ?x with _ => _ end] =>
             let E := fresh "E" in destruct x eqn:E; try discriminate H
         end.

(** The index of the first sign equal to the sign before it, [last] being
    the sign before the first. *)
Fixpoint first_repeat (last : option bool) (signs : list bool) : option nat :=
  match signs with
  | [] => None
  | b :: signs' =>
      if match last with Some p => Bool.eqb b p | None => false end
      then Some 0
      else option_map S (first_repeat (Some b) signs')
  end.

(** A computation that hands the cache back as it got it. *)
Definition frame {A : Type} (m : M A) : Prop := forall c, snd (m c) = c.

(** ** The compiled validator in the words of the specification *)

(** A chain: each step on the output of the step before; the first
    failure ends it. *)
Fixpoint run_chain (chain : list validator) (v : pyval) : result pyval :=
  match chain with
  | [] => Ok v
  | f :: rest =>
      match f v with
      | Ok v' => run_chain rest v'
      | Raise e => Raise e
      end
  end.

(** The parameters of a constraint given as a keyword map: the optional
    positional sublist [args], and the keywords without it. *)
Definition positional (d : list (string * pyval)) : list pyval :=
  match dict_get "args" d with
  | Some (VList l) => l
  | _ => []
  end.

Definition keywords (d : list (string * pyval)) : list (string * pyval) :=
  match dict_get "args" d with
  | Some (VList _) => dict_del "args" d
  | _ => d
  end.

(** The constraint [cv] with the parameters [a] declared for it: none, a
    positional list, or a keyword map. *)
Definition declared_constraint (env : python) (cv : string) (a : pyval)
  : result (option validator) :=
  match a with
  | VNone =>
      match SCHEMA_VALIDATORS env cv with
      | Some sv => Ok (Some (as_validator sv))
      | None => Raise KeyError
      end
  | VList l =>
      match SCHEMA_VALIDATORS env cv with
      | Some sv => f <- called sv l [] ;; Ok (Some f)
      | None => Raise KeyError
      end
  | VDict d =>
      match SCHEMA_VALIDATORS env cv with
      | Some sv => f <- called sv (positional d) (keywords d) ;; Ok (Some f)
      | None => Raise KeyError
      end
  | _ => Ok None
  end.

(** The constraints of an argument, in the order of the catalog. *)
Fixpoint declared_constraints (env : python) (items : list (string * pyval))
  : result (list validator) :=
  match items with
  | [] => Ok []
  | (cv, a) :: items' =>
      o <- declared_constraint env cv a ;;
      cs <- declared_constraints env items' ;;
      Ok (match o with Some f => f :: cs | None => cs end)
  end.

Definition schema_items_of (arg : arg_def) : list (string * pyval) :=
  match arg_schema arg with
  | Some items => items
  | None => []
  end.

(** What the specification asks of the validator [val] installed for the
    argument [arg]: the base coercion of the declared type, then the
    declared constraints, as one chain. *)
Definition compiled_as_declared (env : python) (arg : arg_def)
  (val : validator) : Prop :=
  exists base cs,
    type_validator env (arg_type arg) = Ok base
    /\ declared_constraints env (schema_items_of arg) = Ok cs
    /\ forall path v,
         prepend path (val v) = prepend path (run_chain (base :: cs) v).

Definition item_names (items : list (schema_key * validator)) : list string :=
  map (fun i => key_name (fst i)) items.

(** [all(p(c) for c in s)] *)
Fixpoint string_forall (p : ascii -> bool) (s : string) : bool :=
  match s with
  | EmptyString => true
  | String c s' => p c && string_forall p s'
  end.

(** The characters a quoted run may hold without any of them being read
    as the end of the run or as an escape. *)
Definition plain_char (q c : ascii) : bool :=
  negb (Ascii.eqb c q) && negb (Ascii.eqb c newline)
  && negb (Ascii.eqb c backslash).

Definition binary_digit (c : ascii) : bool :=
  Ascii.eqb c "0" || Ascii.eqb c "1".

(** A letter or underscore followed by letters, digits and underscores. *)
Definition is_identifier (s : string) : bool :=
  match s with
  | String c s' => ident_start c && string_forall ident_char s'
  | EmptyString => false
  end.

(** ** What the catalog schema checks *)

Definition is_params (a : pyval) : bool :=
  match a with
  | VNone | VList _ | VDict _ => true
  | _ => false
  end.

Definition well_formed_arg (arg : arg_def) : Prop :=
  re_identifier (arg_name arg) = true
  /\ In (arg_type arg) VALID_TYPES
  /\ forall cv a,
      In (cv, a) (schema_items_of arg) ->
      In cv SCHEMA_VALIDATOR_NAMES /\ is_params a = true.

Definition well_formed_proto (name : string) (pd : proto_def) : Prop :=
  re_identifier name = true
  /\ In (proto_type pd) [VStr "IR"; VStr "RF"; VStr "IR/RF"]
  /\ proto_args pd <> []
  /\ NoDup (map arg_name (proto_args pd))
  /\ Forall well_formed_arg (proto_args pd).

(** * Properties *)

(** ** Strings *)

Lemma length_append (s t : string) :
  String.length (s ++ t) = String.length s + String.length t.
Proof. induction s as [|c s IH]; simpl; [reflexivity | now rewrite IH]. Qed.

Lemma append_assoc (s t u : string) : ((s ++ t) ++ u = s ++ (t ++ u))%string.
Proof. induction s as [|c s IH]; simpl; [reflexivity | now rewrite IH]. Qed.

Lemma append_empty_r (s : string) : (s ++ "")%string = s.
Proof. induction s as [|c s IH]; simpl; [reflexivity | now rewrite IH]. Qed.

Lemma take_0 (s : string) : take 0 s = "".
Proof. destruct s; reflexivity. Qed.

Lemma drop_0 (s : string) : drop 0 s = s.
Proof. destruct s; reflexivity. Qed.

Lemma take_append (n : nat) (s t : string) :
  n <= String.length s -> take n (s ++ t) = take n s.
Proof.
  revert n; induction s as [|c s IH]; intros n H; simpl in *.
  - assert (n = 0) by lia; subst. now rewrite take_0.
  - destruct n as [|n]; [reflexivity|]. simpl. rewrite IH by lia; reflexivity.
Qed.

Lemma drop_append (n : nat) (s t : string) :
  n <= String.length s -> drop n (s ++ t) = (drop n s ++ t)%string.
Proof.
  revert n; induction s as [|c s IH]; intros n H; simpl in *.
  - assert (n = 0) by lia; subst. now rewrite drop_0.
  - destruct n as [|n]; [reflexivity|]. simpl. apply IH; lia.
Qed.

Lemma drop_all (n : nat) (s : string) :
  String.length s <= n -> drop n s = "".
Proof.
  revert n; induction s as [|c s IH]; intros [|n] H; simpl in *;
    try reflexivity; try lia.
  apply IH; lia.
Qed.

Lemma length_drop (n : nat) (s : string) :
  String.length (drop n s) = String.length s - n.
Proof.
  revert n; induction s as [|c s IH]; intros [|n]; simpl; try reflexivity.
  apply IH.
Qed.

Lemma take_drop (n : nat) (s : string) : (take n s ++ drop n s)%string = s.
Proof.
  revert n; induction s as [|c s IH]; intros [|n]; simpl; try reflexivity.
  now rewrite IH.
Qed.

Lemma length_lstrip (s : string) : String.length (lstrip s) <= String.length s.
Proof.
  induction s as [|c s IH]; simpl; [lia|].
  destruct (isspace c); simpl; lia.
Qed.

Lemma lstrip_append (s t : string) (d : ascii) :
  isspace d = false ->
  lstrip (s ++ String d t) = (lstrip s ++ String d t)%string.
Proof.
  intros Hd; induction s as [|c s IH]; simpl.
  - now rewrite Hd.
  - destruct (isspace c); [exact IH | reflexivity].
Qed.

Lemma lstrip_nonspace (c : ascii) (s : string) :
  isspace c = false -> lstrip (String c s) = String c s.
Proof. intros H; simpl; now rewrite H. Qed.

Lemma rstrip_idem (s : string) : rstrip (rstrip s) = rstrip s.
Proof.
  induction s as [|c s IH]; simpl; [reflexivity|].
  destruct (rstrip s) as [|c' r] eqn:E.
  - destruct (isspace c) eqn:Ec; simpl; [reflexivity | now rewrite Ec].
  - simpl. simpl in IH. destruct (rstrip r) as [|c'' r'] eqn:E'.
    + destruct (isspace c') eqn:Ec'; [discriminate|].
      injection IH as IH. now rewrite <- IH.
    + now rewrite IH.
Qed.

Lemma rstrip_head (c : ascii) (s : string) :
  isspace c = false -> exists r, rstrip (String c s) = String c r.
Proof.
  intros H; simpl. destruct (rstrip s); [rewrite H|]; eauto.
Qed.

Lemma lstrip_head (s : string) :
  lstrip s = "" \/ exists c r, lstrip s = String c r /\ isspace c = false.
Proof.
  induction s as [|c s IH]; simpl; [now left|].
  destruct (isspace c) eqn:E; [exact IH | right; eauto].
Qed.

Lemma strip_idem (s : string) : strip (strip s) = strip s.
Proof.
  unfold strip.
  destruct (lstrip_head s) as [E | (c & r & E & Hc)]; rewrite E.
  - reflexivity.
  - destruct (rstrip_head c r Hc) as [r' E'].
    rewrite E', (lstrip_nonspace _ _ Hc), <- E'. apply rstrip_idem.
Qed.

(** ** The tokenizer *)

Lemma quoted_run_length (n : nat) :
  forall s k q p b r,
    String.length s <= n ->
    quoted_run k q p s = Some (b, r) -> String.length r < String.length s.
Proof.
  induction n as [|n IH]; intros s k q p b r Hn H.
  - destruct s; [discriminate | simpl in Hn; lia].
  - destruct s as [|c s']; [discriminate|]. simpl in Hn.
    cbn [quoted_run] in H.
    destruct (negb (Ascii.eqb c q) && negb (Ascii.eqb c newline)).
    + destruct (quoted_run k q c s') as [[b1 r1]|] eqn:E1.
      * injection H as <- <-. apply IH in E1; simpl; lia.
      * destruct (Ascii.eqb c backslash).
        -- destruct s' as [|c' s'']; [|simpl in Hn].
           ++ break_hyp H. injection H as <- <-. simpl; lia.
           ++ destruct (Ascii.eqb c' q).
              ** destruct (quoted_run k q c' s'') as [[b2 r2]|] eqn:E2.
                 --- injection H as <- <-. apply IH in E2; simpl; lia.
                 --- break_hyp H. injection H as <- <-. simpl; lia.
              ** break_hyp H. injection H as <- <-. simpl; lia.
        -- break_hyp H. injection H as <- <-. simpl; lia.
    + destruct (Ascii.eqb c backslash).
      * destruct s' as [|c' s'']; [|simpl in Hn].
        -- break_hyp H. injection H as <- <-. simpl; lia.
        -- destruct (Ascii.eqb c' q).
           ++ destruct (quoted_run k q c' s'') as [[b2 r2]|] eqn:E2.
              ** injection H as <- <-. apply IH in E2; simpl; lia.
              ** break_hyp H. injection H as <- <-. simpl; lia.
           ++ break_hyp H. injection H as <- <-. simpl; lia.
      * break_hyp H. injection H as <- <-. simpl; lia.
Qed.

Lemma quoted_token_length (s rest : string) :
  quoted_token s = Some rest -> String.length rest < String.length s.
Proof.
  unfold quoted_token; intros H.
  pose proof (length_lstrip s) as Hs.
  destruct (lstrip s) as [|q s'] eqn:E; [discriminate|].
  destruct (is_quote q); [|discriminate].
  destruct (quoted_run _ q q s') as [[b r]|] eqn:E1; [|discriminate].
  injection H as <-.
  apply (quoted_run_length _ _ _ _ _ _ _ (le_n _)) in E1.
  pose proof (length_lstrip r). simpl in Hs. lia.
Qed.

Lemma quoted_run_append (n : nat) :
  forall s q p d,
    String.length s <= n ->
    Ascii.eqb d q = false ->
    quoted_run (fun _ => true) q p (s ++ String d "")
    = extend d (quoted_run (fun _ => true) q p s).
Proof.
  induction n as [|n IH]; intros s q p d Hn Hd.
  - destruct s; [|simpl in Hn; lia].
    cbn. rewrite Hd. cbn.
    destruct (negb (Ascii.eqb d newline)); cbn;
      destruct (Ascii.eqb d backslash); reflexivity.
  - destruct s as [|c s'].
    + cbn. rewrite Hd. cbn.
      destruct (negb (Ascii.eqb d newline)); cbn;
        destruct (Ascii.eqb d backslash); reflexivity.
    + simpl in Hn.
      change ((String c s' ++ String d "")%string)
        with (String c (s' ++ String d "")%string).
      cbn [quoted_run].
      rewrite (IH s' q c d) by (auto; lia).
      destruct (negb (Ascii.eqb c q) && negb (Ascii.eqb c newline));
        [destruct (quoted_run (fun _ => true) q c s') as [[b1 r1]|]; [reflexivity|]|];
        cbn [extend].
      * destruct (Ascii.eqb c backslash).
        -- destruct s' as [|c' s'']; cbn [append].
           ++ rewrite Hd. destruct (Ascii.eqb c q && negb (Ascii.eqb p backslash) && true);
                reflexivity.
           ++ simpl in Hn. destruct (Ascii.eqb c' q).
              ** rewrite (IH s'' q c' d) by (auto; lia).
                 destruct (quoted_run (fun _ => true) q c' s'') as [[b2 r2]|];
                   [reflexivity|]. cbn [extend].
                 destruct (Ascii.eqb c q && negb (Ascii.eqb p backslash) && true);
                   reflexivity.
              ** destruct (Ascii.eqb c q && negb (Ascii.eqb p backslash) && true);
                   reflexivity.
        -- destruct (Ascii.eqb c q && negb (Ascii.eqb p backslash) && true);
             reflexivity.
      * destruct (Ascii.eqb c backslash).
        -- destruct s' as [|c' s'']; cbn [append].
           ++ rewrite Hd. destruct (Ascii.eqb c q && negb (Ascii.eqb p backslash) && true);
                reflexivity.
           ++ simpl in Hn. destruct (Ascii.eqb c' q).
              ** rewrite (IH s'' q c' d) by (auto; lia).
                 destruct (quoted_run (fun _ => true) q c' s'') as [[b2 r2]|];
                   [reflexivity|]. cbn [extend].
                 destruct (Ascii.eqb c q && negb (Ascii.eqb p backslash) && true);
                   reflexivity.
              ** destruct (Ascii.eqb c q && negb (Ascii.eqb p backslash) && true);
                   reflexivity.
        -- destruct (Ascii.eqb c q && negb (Ascii.eqb p backslash) && true);
             reflexivity.
Qed.

Lemma is_quote_neq (d q : ascii) :
  is_quote d = false -> is_quote q = true -> Ascii.eqb d q = false.
Proof.
  intros Hd Hq. destruct (Ascii.eqb d q) eqn:E; [|reflexivity].
  apply Ascii.eqb_eq in E; subst. congruence.
Qed.

Lemma quoted_token_append (s : string) (d : ascii) :
  isspace d = false -> is_quote d = false ->
  quoted_token (s ++ String d "")
  = option_map (fun r => (r ++ String d "")%string) (quoted_token s).
Proof.
  intros Hs Hq. unfold quoted_token.
  rewrite lstrip_append by assumption.
  destruct (lstrip s) as [|q s'] eqn:E; cbn [append].
  - now rewrite Hq.
  - destruct (is_quote q) eqn:Eq; [|reflexivity].
    rewrite (quoted_run_append _ s' q q d (le_n _) (is_quote_neq _ _ Hq Eq)).
    destruct (quoted_run (fun _ => true) q q s') as [[b r]|]; [|reflexivity].
    cbn. now rewrite lstrip_append.
Qed.

Lemma quoted_run_suffix (n : nat) :
  forall s k q p b r,
    String.length s <= n ->
    quoted_run k q p s = Some (b, r) -> exists pre, s = (pre ++ r)%string.
Proof.
  induction n as [|n IH]; intros s k q p b r Hn H.
  - destruct s; [discriminate | simpl in Hn; lia].
  - destruct s as [|c s']; [discriminate|]. simpl in Hn.
    cbn [quoted_run] in H.
    assert (Hexit :
      (if Ascii.eqb c q && negb (Ascii.eqb p backslash) && k s'
       then Some (""%string, s') else None) = Some (b, r) ->
      exists pre, String c s' = (pre ++ r)%string).
    { intros H'. break_hyp H'. injection H' as <- <-.
      exists (String c ""). reflexivity. }
    assert (Halt2 :
      match (if Ascii.eqb c backslash
             then match s' with
                  | String c' s'' =>
                      if Ascii.eqb c' q
                      then match quoted_run k q c' s'' with
                           | Some (body, rest) =>
                               Some (String c (String c' body), rest)
                           | None => None
                           end
                      else None
                  | EmptyString => None
                  end
             else None) with
      | Some r0 => Some r0
      | None =>
          if Ascii.eqb c q && negb (Ascii.eqb p backslash) && k s'
          then Some (""%string, s') else None
      end = Some (b, r) ->
      exists pre, String c s' = (pre ++ r)%string).
    { intros H'. destruct (Ascii.eqb c backslash); [|auto].
      destruct s' as [|c' s'']; [auto|]. simpl in Hn.
      destruct (Ascii.eqb c' q); [|auto].
      destruct (quoted_run k q c' s'') as [[b2 r2]|] eqn:E2; [|auto].
      injection H' as <- <-. apply IH in E2; [|lia].
      destruct E2 as [pre ->]. exists (String c (String c' pre)). reflexivity. }
    destruct (negb (Ascii.eqb c q) && negb (Ascii.eqb c newline)); [|auto].
    destruct (quoted_run k q c s') as [[b1 r1]|] eqn:E1; [|auto].
    injection H as <- <-. apply IH in E1; [|lia].
    destruct E1 as [pre ->]. exists (String c pre). reflexivity.
Qed.

Lemma lstrip_suffix (s : string) : exists pre, s = (pre ++ lstrip s)%string.
Proof.
  induction s as [|c s [pre IH]]; simpl.
  - exists ""%string; reflexivity.
  - destruct (isspace c).
    + exists (String c pre). simpl. now rewrite <- IH.
    + exists ""%string; reflexivity.
Qed.

Lemma quoted_token_suffix (s rest : string) :
  quoted_token s = Some rest -> exists pre, s = (pre ++ rest)%string.
Proof.
  unfold quoted_token; intros H.
  destruct (lstrip_suffix s) as [p1 H1].
  destruct (lstrip s) as [|q s'] eqn:E; [discriminate|].
  destruct (is_quote q); [|discriminate].
  destruct (quoted_run _ q q s') as [[b r]|] eqn:E1; [|discriminate].
  injection H as <-.
  apply (quoted_run_suffix _ _ _ _ _ _ _ (le_n _)) in E1.
  destruct E1 as [p2 ->]. destruct (lstrip_suffix r) as [p3 H3].
  exists (p1 ++ String q p2 ++ p3)%string.
  rewrite H1 at 1. rewrite H3 at 1.
  now rewrite !append_assoc.
Qed.

Lemma get_append (pre r : string) (i : nat) :
  String.get (String.length pre + i) (pre ++ r) = String.get i r.
Proof. induction pre as [|c pre IH]; simpl; [reflexivity | exact IH]. Qed.

Lemma get_drop (n i : nat) (s : string) :
  String.get i (drop n s) = String.get (n + i) s.
Proof.
  revert n; induction s as [|c s IH]; intros n.
  - destruct n, i; reflexivity.
  - destruct n as [|n]; [reflexivity|]. simpl. apply IH.
Qed.

Lemma re_first_end_fuel (f : nat) :
  forall f' d s,
    String.length s < f -> String.length s < f' ->
    re_first_end f d s = re_first_end f' d s.
Proof.
  induction f as [|f IH]; intros f' d s H H'; [lia|].
  destruct f' as [|f']; [lia|]. cbn [re_first_end].
  destruct (quoted_token s) as [rest|] eqn:E.
  - apply quoted_token_length in E. f_equal. apply IH; lia.
  - destruct s as [|c s']; [reflexivity|]. simpl in H, H'.
    destruct (Ascii.eqb c d); [reflexivity|]. f_equal. apply IH; lia.
Qed.

Lemma re_first_end_le (f : nat) :
  forall d s, re_first_end f d s <= String.length s.
Proof.
  induction f as [|f IH]; intros d s; cbn [re_first_end]; [lia|].
  destruct (quoted_token s) as [rest|] eqn:E.
  - apply quoted_token_length in E. specialize (IH d rest). lia.
  - destruct s as [|c s']; [simpl; lia|].
    destruct (Ascii.eqb c d); simpl; [lia|]. specialize (IH d s'). lia.
Qed.

Lemma re_first_end_delimiter (f : nat) :
  forall d s,
    String.length s < f ->
    re_first_end f d s < String.length s ->
    String.get (re_first_end f d s) s = Some d.
Proof.
  induction f as [|f IH]; intros d s Hf H; [lia|].
  cbn [re_first_end] in *.
  destruct (quoted_token s) as [rest|] eqn:E.
  - pose proof (quoted_token_length _ _ E) as Hl.
    destruct (quoted_token_suffix _ _ E) as [pre ->].
    rewrite length_append in *.
    replace (String.length pre + String.length rest - String.length rest)
      with (String.length pre) in * by lia.
    rewrite get_append. apply IH; lia.
  - destruct s as [|c s']; [simpl in H; lia|]. simpl in Hf.
    destruct (Ascii.eqb c d) eqn:Ec.
    + apply Ascii.eqb_eq in Ec; subst; reflexivity.
    + simpl in H. simpl. apply IH; lia.
Qed.

Lemma re_first_end_S (f : nat) (d : ascii) (s : string) :
  re_first_end (S f) d s =
  match quoted_token s with
  | Some rest =>
      (String.length s - String.length rest) + re_first_end f d rest
  | None =>
      match s with
      | String c s' =>
          if Ascii.eqb c d then 0 else 1 + re_first_end f d s'
      | EmptyString => 0
      end
  end.
Proof. reflexivity. Qed.

Lemma re_first_end_append (f : nat) :
  forall d s,
    isspace d = false -> is_quote d = false ->
    String.length s < f ->
    re_first_end (S f) d (s ++ String d "") = re_first_end f d s.
Proof.
  induction f as [|f IH]; intros d s Hs Hq Hf; [lia|].
  rewrite (re_first_end_S (S f)), (re_first_end_S f).
  rewrite quoted_token_append by assumption.
  destruct (quoted_token s) as [rest|] eqn:E; cbn [option_map].
  - apply quoted_token_length in E.
    rewrite !length_append. simpl String.length.
    rewrite (IH d rest) by (auto; lia). lia.
  - destruct s as [|c s']; cbn [append].
    + now rewrite Ascii.eqb_refl.
    + simpl in Hf. destruct (Ascii.eqb c d); [reflexivity|].
      rewrite (IH d s') by (auto; lia). reflexivity.
Qed.

Lemma re_first_append (d : ascii) (s : string) :
  isspace d = false -> is_quote d = false ->
  re_first d (s ++ String d "") = re_first d s.
Proof.
  intros Hs Hq. unfold re_first. rewrite length_append. simpl String.length.
  replace (String.length s + 1) with (S (String.length s)) by lia.
  apply re_first_end_append; auto.
Qed.

Lemma re_first_le (d : ascii) (s : string) : re_first d s <= String.length s.
Proof. apply re_first_end_le. Qed.

Lemma re_first_delimiter (d : ascii) (s : string) :
  re_first d s < String.length s -> String.get (re_first d s) s = Some d.
Proof. apply re_first_end_delimiter. lia. Qed.

Lemma quoted_split_loop_acc (f : nat) :
  forall d t acc,
    quoted_split_loop f d t acc = acc ++ quoted_split_loop f d t [].
Proof.
  induction f as [|f IH]; intros d t acc; cbn [quoted_split_loop].
  - now rewrite app_nil_r.
  - destruct t as [|c t']; [now rewrite app_nil_r|].
    rewrite IH. rewrite (IH _ _ ([] ++ _)). now rewrite <- app_assoc.
Qed.

Lemma quoted_split_loop_fuel (f : nat) :
  forall f' d t acc,
    String.length t <= f -> String.length t <= f' ->
    quoted_split_loop f d t acc = quoted_split_loop f' d t acc.
Proof.
  induction f as [|f IH]; intros f' d t acc H H'.
  - destruct t; [|simpl in H; lia]. destruct f'; reflexivity.
  - destruct t as [|c t']; [destruct f'; reflexivity|].
    destruct f' as [|f']; [simpl in H'; lia|].
    cbn [quoted_split_loop]. cbn [String.length] in H, H'.
    apply IH; rewrite length_drop; cbn [String.length]; lia.
Qed.

Lemma quoted_split_empty (d : ascii) : quoted_split "" d = [].
Proof. reflexivity. Qed.

(** One turn of the [while] loop. *)
Lemma quoted_split_step (d : ascii) (t : string) :
  t <> ""%string ->
  quoted_split t d
  = strip (take (re_first d t) t)
      :: quoted_split (drop (re_first d t + 1) t) d.
Proof.
  intros Ht. unfold quoted_split.
  destruct t as [|c t']; [congruence|].
  cbn [String.length quoted_split_loop].
  rewrite quoted_split_loop_acc. cbn [app]. f_equal.
  apply quoted_split_loop_fuel; rewrite length_drop; cbn [String.length]; lia.
Qed.

Lemma quoted_split_leading_delimiter (d : ascii) (rest : string) :
  isspace d = false -> is_quote d = false ->
  quoted_split (String d rest) d = ""%string :: quoted_split rest d.
Proof.
  intros Hs Hq. rewrite quoted_split_step by discriminate.
  assert (E : re_first d (String d rest) = 0).
  { unfold re_first. rewrite re_first_end_S. unfold quoted_token.
    rewrite lstrip_nonspace by assumption. rewrite Hq.
    now rewrite Ascii.eqb_refl. }
  rewrite E. reflexivity.
Qed.

Lemma quoted_split_stripped (n : nat) :
  forall d t tok,
    String.length t <= n -> In tok (quoted_split t d) -> strip tok = tok.
Proof.
  induction n as [|n IH]; intros d t tok Hn Hin.
  - destruct t; [contradiction | simpl in Hn; lia].
  - destruct t as [|c t']; [contradiction|].
    rewrite quoted_split_step in Hin by discriminate.
    destruct Hin as [<- | Hin]; [apply strip_idem|].
    apply IH in Hin; [assumption|].
    rewrite length_drop. cbn [String.length] in *. lia.
Qed.

(** Appending the delimiter to a text that does not end with it adds no
    token. *)
Lemma quoted_split_trailing (n : nat) :
  forall d u,
    isspace d = false -> is_quote d = false ->
    String.length u <= n ->
    u <> ""%string ->
    String.get (String.length u - 1) u <> Some d ->
    quoted_split (u ++ String d "") d = quoted_split u d.
Proof.
  induction n as [|n IH]; intros d u Hs Hq Hn Hu Hlast.
  - destruct u; [congruence | simpl in Hn; lia].
  - assert (Hne : (u ++ String d "")%string <> ""%string)
      by (destruct u; discriminate).
    rewrite (quoted_split_step d _ Hne), (quoted_split_step d _ Hu).
    rewrite re_first_append by assumption.
    pose proof (re_first_le d u) as Hle.
    rewrite take_append by assumption. f_equal.
    destruct (Nat.eq_dec (re_first d u) (String.length u)) as [E | E].
    + rewrite !drop_all; [reflexivity | lia | rewrite length_append; simpl; lia].
    + assert (Hlt : re_first d u < String.length u) by lia.
      pose proof (re_first_delimiter d u Hlt) as Hd.
      assert (Hlt' : re_first d u + 1 < String.length u).
      { destruct (Nat.eq_dec (re_first d u + 1) (String.length u)) as [E'|E'];
          [|lia].
        exfalso. apply Hlast. rewrite <- Hd. f_equal. lia. }
      rewrite drop_append by lia.
      apply IH; auto.
      * rewrite length_drop. lia.
      * intros E'. apply (f_equal String.length) in E'.
        rewrite length_drop in E'. cbn [String.length] in E'. lia.
      * rewrite get_drop, length_drop.
        replace (re_first d u + 1 + (String.length u - (re_first d u + 1) - 1))
          with (String.length u - 1) by lia.
        assumption.
Qed.

(** A second delimiter at the end adds the empty token between the
    two. *)
Lemma quoted_split_double (n : nat) :
  forall d u,
    isspace d = false -> is_quote d = false ->
    String.length u <= n ->
    quoted_split (u ++ String d (String d "")) d
    = quoted_split (u ++ String d "") d ++ [""%string].
Proof.
  induction n as [|n IH]; intros d u Hs Hq Hn.
  - destruct u; [|simpl in Hn; lia]. cbn [append].
    rewrite !quoted_split_leading_delimiter by assumption. reflexivity.
  - assert (Hne : forall t, (u ++ String d t)%string <> ""%string)
      by (intros t; destruct u; discriminate).
    rewrite (quoted_split_step d _ (Hne _)), (quoted_split_step d _ (Hne _)).
    change (String d (String d "")) with (String d "" ++ String d "")%string.
    rewrite <- append_assoc.
    rewrite !re_first_append by assumption.
    pose proof (re_first_le d u) as Hle.
    rewrite take_append by (rewrite length_append; simpl; lia).
    cbn [app]. f_equal.
    destruct (Nat.eq_dec (re_first d u) (String.length u)) as [E | E].
    + rewrite E.
      rewrite (drop_all _ (u ++ String d "")) by (rewrite length_append; simpl; lia).
      rewrite drop_append by (rewrite length_append; simpl; lia).
      rewrite (drop_all _ (u ++ String d "")) by (rewrite length_append; simpl; lia).
      cbn [append]. rewrite quoted_split_leading_delimiter by assumption.
      reflexivity.
    + rewrite append_assoc. rewrite !drop_append by lia.
      cbn [append]. apply IH; auto.
      rewrite length_drop. lia.
Qed.

(** C2 (as amended).  The tokenizer on the three sample inputs: a delimiter
    inside a quoted run does not separate, and the token of a quoted run
    keeps its quotation marks; the empty text gives no token; two
    consecutive delimiters give an empty token.  In general every token is
    free of leading and trailing white space, and a delimiter at the start
    of what is left of the text yields an empty token. *)
Theorem quoted_split_tokens :
  quoted_split quoted_example "," = ["a"; dq ++ "b,c" ++ dq; "d"]%string
  /\ quoted_split "" "," = []
  /\ quoted_split "a,,b" "," = ["a"; ""; "b"]%string
  /\ (forall text d tok, In tok (quoted_split text d) -> strip tok = tok)
  /\ (forall d rest,
        isspace d = false -> is_quote d = false ->
        quoted_split (String d rest) d = ""%string :: quoted_split rest d).
Proof.
  repeat split; try reflexivity.
  - intros text d tok. apply (quoted_split_stripped _ d text tok (le_n _)).
  - intros d rest. apply quoted_split_leading_delimiter.
Qed.

Lemma quoted_split_tokens_witness :
  strip "b" = "b"%string
  /\ quoted_split ",x" "," = [""; "x"]%string.
Proof.
  destruct quoted_split_tokens as (_ & _ & _ & Hstrip & Hlead). split.
  - apply (Hstrip "a,,b"%string ","%char "b"%string). vm_compute. auto.
  - apply (Hlead ","%char "x"%string); reflexivity.
Defined.

(** C2 as stated fails: the token of the quoted run is not the bare
    content [b,c]. *)
Lemma quoted_split_keeps_quotes :
  quoted_split quoted_example "," <> ["a"; "b,c"; "d"]%string.
Proof. vm_compute. discriminate. Qed.

(** C10.  No token is produced after a final delimiter: [a,] gives the one
    token [a] and [,] the one empty token; appending the delimiter to a
    non-empty text that does not end with it leaves the tokens as they
    are; appending it to a text that ends with it adds the one empty
    token that lies between the two delimiters. *)
Theorem quoted_split_drops_trailing_empty :
  quoted_split "a," "," = ["a"%string]
  /\ quoted_split "," "," = [""%string]
  /\ (forall d u,
        isspace d = false -> is_quote d = false ->
        u <> ""%string ->
        String.get (String.length u - 1) u <> Some d ->
        quoted_split (u ++ String d "") d = quoted_split u d)
  /\ (forall d u,
        isspace d = false -> is_quote d = false ->
        quoted_split (u ++ String d (String d "")) d
        = quoted_split (u ++ String d "") d ++ [""%string]).
Proof.
  repeat split; try reflexivity.
  - intros d u Hs Hq Hu Hl.
    apply (quoted_split_trailing _ d u Hs Hq (le_n _) Hu Hl).
  - intros d u Hs Hq. apply (quoted_split_double _ d u Hs Hq (le_n _)).
Qed.

Lemma quoted_split_drops_trailing_empty_witness :
  quoted_split "beep:440:" ":" = quoted_split "beep:440" ":"
  /\ quoted_split "beep::" ":" = (quoted_split "beep:" ":" ++ [""%string]).
Proof.
  destruct quoted_split_drops_trailing_empty as (_ & _ & Htrail & Hdouble).
  split.
  - apply (Htrail ":"%char "beep:440"%string); try reflexivity; discriminate.
  - apply (Hdouble ":"%char "beep"%string); reflexivity.
Defined.

(** ** Integer coercion *)

Lemma integer_range_int (lo hi : Z) (v : pyval) (z : Z) :
  as_int v = Some z ->
  integer_range (Some lo) (Some hi) v
  = if (z <? lo)%Z then Raise (Invalid (MsgAtLeast lo) [])
    else if (hi <? z)%Z then Raise (Invalid (MsgAtMost hi) [])
    else Ok v.
Proof.
  intros H. unfold integer_range, vol_All.
  assert (E : integer v = Ok v) by (destruct v; try discriminate; reflexivity).
  rewrite E. cbn [prepend bind]. unfold vol_Range. rewrite H.
  rewrite (Z.leb_antisym z lo), (Z.leb_antisym hi z), !negb_involutive.
  destruct (z <? lo)%Z; [reflexivity|]. destruct (hi <? z)%Z; reflexivity.
Qed.

Lemma integer_range_float (lo hi : Z) (f : spec_float) :
  integer_range (Some lo) (Some hi) (VFloat f)
  = match int_of_float f with
    | Ok i =>
        if float_is_integral f then integer_range (Some lo) (Some hi) (VInt i)
        else Raise (Invalid (MsgNoFraction (VFloat f)) [])
    | Raise ValueError => Raise (Invalid (MsgText "not a valid value") [])
    | Raise e => Raise e
    end.
Proof.
  unfold integer_range, vol_All, integer.
  destruct (int_of_float f) as [i|e] eqn:E; cbn [bind prepend].
  - destruct (float_is_integral f); reflexivity.
  - destruct f; try discriminate; cbn in E; injection E as <-; reflexivity.
Qed.

Lemma integer_range_str (lo hi : Z) (s : string) :
  integer_range (Some lo) (Some hi) (VStr s)
  = match py_int (lower s) (if startswith "0x" (lower s) then 16 else 10)%Z with
    | Some i => integer_range (Some lo) (Some hi) (VInt i)
    | None => Raise (Invalid (MsgCannotParse (lower s)) [])
    end.
Proof.
  unfold integer_range, vol_All, integer. cbn [string_strict bind].
  destruct (py_int _ _); reflexivity.
Qed.

(** C3 (as amended).  The catalog has an integer rule for [int],
    [int32_t], [uint], [uint8_t], [uint16_t], [uint32_t] and [uint64_t],
    each [integer_range] over the bounds of its width.  Such a rule takes
    an int (or a bool, which is an int in Python) inside the inclusive
    bounds and fails outside; takes a float with no fractional part as its
    truncation and fails on one with a fractional part, on an infinity and
    on a NaN; parses a string, lowercased, in base 16 when it starts with
    [0x] and base 10 otherwise; and fails on anything else.  The four
    sample coercions are as stated. *)
Theorem integer_rules :
  (forall env name lo hi,
      In (name, lo, hi) INTEGER_TYPES ->
      CPP_TYPES env name = Some (integer_range (Some lo) (Some hi)))
  /\ (forall lo hi,
        let rule := integer_range (Some lo) (Some hi) in
        (forall v z, as_int v = Some z -> (lo <= z <= hi)%Z -> rule v = Ok v)
        /\ (forall v z, as_int v = Some z -> ~ (lo <= z <= hi)%Z ->
                        is_ok (rule v) = false)
        /\ (forall f i, int_of_float f = Ok i -> float_is_integral f = true ->
                        rule (VFloat f) = rule (VInt i))
        /\ (forall f, float_is_integral f = false ->
                      rule (VFloat f)
                      = Raise (Invalid (MsgNoFraction (VFloat f)) []))
        /\ (forall f e, int_of_float f = Raise e ->
                        is_ok (rule (VFloat f)) = false)
        /\ (forall s,
               rule (VStr s)
               = match py_int (lower s)
                         (if startswith "0x" (lower s) then 16 else 10)%Z with
                 | Some i => rule (VInt i)
                 | None => Raise (Invalid (MsgCannotParse (lower s)) [])
                 end)
        /\ (forall v,
               match v with
               | VNone | VList _ | VDict _ | VOpaque _ =>
                   rule v = Raise (Invalid (MsgMustBeString v) [])
               | _ => True
               end))
  /\ (forall env,
        exists uint8 int32,
          CPP_TYPES env "uint8_t" = Some uint8
          /\ CPP_TYPES env "int32_t" = Some int32
          /\ uint8 (VStr "0xFF") = Ok (VInt 255)
          /\ uint8 (VInt 256) = Raise (Invalid (MsgAtMost 255) [])
          /\ int32 (VFloat float_3_0) = Ok (VInt 3)
          /\ int32 (VFloat float_3_5)
             = Raise (Invalid (MsgNoFraction (VFloat float_3_5)) [])).
Proof.
  split; [|split].
  - intros env name lo hi H. cbn in H.
    repeat (destruct H as [H | H];
            [injection H as <- <- <-; reflexivity|]).
    contradiction.
  - intros lo hi rule. subst rule. repeat split.
    + intros v z Hv [Hlo Hhi]. rewrite (integer_range_int _ _ _ _ Hv).
      destruct (Z.ltb_spec z lo); [lia|].
      destruct (Z.ltb_spec hi z); [lia | reflexivity].
    + intros v z Hv Hout. rewrite (integer_range_int _ _ _ _ Hv).
      destruct (Z.ltb_spec z lo); [reflexivity|].
      destruct (Z.ltb_spec hi z); [reflexivity | lia].
    + intros f i Hi Hf. rewrite integer_range_float, Hi, Hf. reflexivity.
    + intros f Hf. rewrite integer_range_float.
      destruct f as [| | |sg m e]; try discriminate Hf.
      cbn [int_of_float]. now rewrite Hf.
    + intros f e Hi. rewrite integer_range_float, Hi. destruct e; reflexivity.
    + apply integer_range_str.
    + intros v. destruct v; exact I || reflexivity.
  - intros env. do 2 eexists. repeat split.
Qed.

Lemma integer_rules_witness :
  CPP_TYPES demo_env "uint16_t" = Some (integer_range (Some 0%Z) (Some 65535%Z))
  /\ integer_range (Some 0%Z) (Some 255%Z) (VBool true) = Ok (VBool true)
  /\ is_ok (integer_range (Some 0%Z) (Some 255%Z) (VInt (-1))) = false
  /\ integer_range (Some 0%Z) (Some 255%Z) (VFloat float_3_0)
     = integer_range (Some 0%Z) (Some 255%Z) (VInt 3)
  /\ is_ok (integer_range (Some 0%Z) (Some 255%Z) (VFloat S754_nan)) = false.
Proof.
  destruct integer_rules as (Htable & Hrule & _).
  destruct (Hrule 0%Z 255%Z) as (Hin & Hout & Hfloat & _ & Hbad & _).
  split; [|split; [|split; [|split]]].
  - apply (Htable demo_env "uint16_t" 0%Z 65535%Z). cbn. tauto.
  - apply (Hin (VBool true) 1%Z); [reflexivity | lia].
  - apply (Hout (VInt (-1)) (-1)%Z); [reflexivity | lia].
  - apply (Hfloat float_3_0 3%Z); reflexivity.
  - apply (Hbad S754_nan ValueError); reflexivity.
Defined.

(** C3 as stated fails: the catalog has no rule for the signed 8, 16 and
    64-bit types. *)
Lemma no_int8_int16_int64 :
  CPP_TYPES demo_env "int8_t" = None
  /\ CPP_TYPES demo_env "int16_t" = None
  /\ CPP_TYPES demo_env "int64_t" = None.
Proof. repeat split. Qed.

(** ** The alternating-sign constraint *)

Lemma alternating_signs_loop_spec (signs : list bool) :
  forall l i last,
    map is_negative l = map Some signs ->
    (last <> None -> i <> 0) ->
    alternating_signs_loop i last l
    = match first_repeat last signs with
      | None => Ok tt
      | Some k =>
          Raise (Invalid (MsgAlternating (i + k) (i + k + 1)) [PIdx (i + k)])
      end.
Proof.
  induction signs as [|b signs IH]; intros l i last Hl Hi;
    destruct l as [|val l]; try discriminate Hl; [reflexivity|].
  cbn [map] in Hl. injection Hl as Hb Hl.
  cbn [alternating_signs_loop first_repeat]. rewrite Hb.
  destruct last as [p|].
  - assert (E : (i =? 0)%nat = false) by (apply Nat.eqb_neq, Hi; discriminate).
    rewrite E. cbn [negb andb].
    destruct (Bool.eqb b p).
    + now rewrite Nat.add_0_r.
    + rewrite (IH l (S i) (Some b) Hl) by (intros _; lia).
      destruct (first_repeat (Some b) signs) as [k|]; cbn [option_map];
        [|reflexivity].
      now replace (S i + k) with (i + S k) by lia.
  - rewrite andb_false_r.
    rewrite (IH l (S i) (Some b) Hl) by (intros _; lia).
    destruct (first_repeat (Some b) signs) as [k|]; cbn [option_map];
      [|reflexivity].
    now replace (S i + k) with (i + S k) by lia.
Qed.

(** [first_repeat] finds nothing exactly when neighbours differ. *)
Lemma first_repeat_none (signs : list bool) :
  forall last,
    first_repeat last signs = None <->
    (forall b, hd_error signs = Some b -> last <> Some b)
    /\ (forall i a b, nth_error signs i = Some a ->
                      nth_error signs (S i) = Some b -> a <> b).
Proof.
  induction signs as [|b signs IH]; intros last; cbn [first_repeat].
  - split; [intros _|reflexivity]. split; [discriminate|].
    intros [|i] a b H; discriminate H.
  - split.
    + intros H. destruct last as [p|].
      * destruct (Bool.eqb b p) eqn:E; [discriminate|].
        destruct (first_repeat (Some b) signs) eqn:F; [discriminate|].
        apply IH in F. destruct F as [F1 F2]. split.
        -- intros b' Hb' Hp. cbn in Hb'. injection Hb' as <-.
           injection Hp as ->. now rewrite Bool.eqb_reflx in E.
        -- intros [|i] x y Hx Hy; cbn in Hx, Hy.
           ++ injection Hx as <-. intros ->. apply (F1 y); [|reflexivity].
              destruct signs; [discriminate | exact Hy].
           ++ eapply F2; eassumption.
      * destruct (first_repeat (Some b) signs) eqn:F; [discriminate|].
        apply IH in F. destruct F as [F1 F2]. split; [discriminate|].
        intros [|i] x y Hx Hy; cbn in Hx, Hy.
        -- injection Hx as <-. intros ->. apply (F1 y); [|reflexivity].
           destruct signs; [discriminate | exact Hy].
        -- eapply F2; eassumption.
    + intros [H1 H2].
      assert (F : first_repeat (Some b) signs = None).
      { apply IH. split.
        - intros b' Hb' E. injection E as ->.
          apply (H2 0 b' b'); [reflexivity| |reflexivity].
          destruct signs; [discriminate | exact Hb'].
        - intros i x y Hx Hy. apply (H2 (S i) x y); assumption. }
      rewrite F. cbn [option_map].
      destruct last as [p|]; [|reflexivity].
      destruct (Bool.eqb b p) eqn:E; [|reflexivity].
      apply Bool.eqb_prop in E. subst. exfalso. now apply (H1 p).
Qed.

(** [first_repeat] finds the least index whose sign repeats. *)
Lemma first_repeat_some (signs : list bool) :
  forall i a,
    nth_error signs i = Some a ->
    nth_error signs (S i) = Some a ->
    (forall j x y, j < i -> nth_error signs j = Some x ->
                   nth_error signs (S j) = Some y -> x <> y) ->
    forall last, (forall b, hd_error signs = Some b -> last <> Some b) ->
    first_repeat last signs = Some (S i).
Proof.
  induction signs as [|b signs IH]; intros i a Hi HSi Hmin last Hlast.
  - destruct i; discriminate Hi.
  - cbn [first_repeat].
    assert (E : match last with Some p => Bool.eqb b p | None => false end
                = false).
    { destruct last as [p|]; [|reflexivity].
      destruct (Bool.eqb b p) eqn:E; [|reflexivity].
      apply Bool.eqb_prop in E. subst. exfalso. now apply (Hlast p). }
    rewrite E. destruct i as [|i].
    + cbn in Hi, HSi. injection Hi as ->.
      destruct signs as [|b' signs]; [discriminate|].
      cbn in HSi. injection HSi as ->.
      cbn [first_repeat]. now rewrite Bool.eqb_reflx.
    + cbn in Hi, HSi.
      rewrite (IH i a Hi HSi); [reflexivity| |].
      * intros j x y Hj Hx Hy. apply (Hmin (S j) x y); [lia | exact Hx | exact Hy].
      * intros b' Hb' Eb. injection Eb as ->.
        apply (Hmin 0 b' b'); [lia | reflexivity | | reflexivity].
        destruct signs; [discriminate | exact Hb'].
Qed.

(** C8.  On a list of numbers with the signs [signs] ([true] for a
    negative element; zero is not negative), the constraint returns the
    list exactly when every element differs in sign from the one before
    it; otherwise it fails at the first index [i > 0] whose sign equals
    that of index [i - 1], with the path [i] and a message naming [i] and
    [i + 1].  [1, -2, 3] passes and [1, 2, -3] fails at index 1. *)
Theorem alternating_signs_spec :
  forall l signs,
    map is_negative l = map Some signs ->
    (alternating_signs (VList l) = Ok (VList l) <->
     (forall i a b, nth_error signs i = Some a ->
                    nth_error signs (S i) = Some b -> a <> b))
    /\ (forall i a,
          nth_error signs i = Some a ->
          nth_error signs (S i) = Some a ->
          (forall j x y, j < i -> nth_error signs j = Some x ->
                         nth_error signs (S j) = Some y -> x <> y) ->
          alternating_signs (VList l)
          = Raise (Invalid (MsgAlternating (S i) (S i + 1)) [PIdx (S i)]))
    /\ is_negative (VInt 0) = Some false
    /\ alternating_signs (VList [VInt 1; VInt (-2); VInt 3])
       = Ok (VList [VInt 1; VInt (-2); VInt 3])
    /\ alternating_signs (VList [VInt 1; VInt 2; VInt (-3)])
       = Raise (Invalid (MsgAlternating 1 2) [PIdx 1]).
Proof.
  intros l signs Hl.
  assert (Hrun : alternating_signs (VList l)
                 = match first_repeat None signs with
                   | None => Ok (VList l)
                   | Some k =>
                       Raise (Invalid (MsgAlternating k (k + 1)) [PIdx k])
                   end).
  { unfold alternating_signs.
    rewrite (alternating_signs_loop_spec signs l 0 None Hl) by congruence.
    destruct (first_repeat None signs); reflexivity. }
  repeat split; try reflexivity.
  - intros H. rewrite Hrun in H.
    destruct (first_repeat None signs) eqn:F; [discriminate|].
    apply first_repeat_none in F. apply F.
  - intros H. rewrite Hrun.
    replace (first_repeat None signs) with (@None nat); [reflexivity|].
    symmetry. apply first_repeat_none. split; [discriminate | exact H].
  - intros i a Hi HSi Hmin. rewrite Hrun.
    rewrite (first_repeat_some signs i a Hi HSi Hmin None); [reflexivity|].
    discriminate.
Qed.

Lemma alternating_signs_spec_witness :
  alternating_signs (VList [VInt 5; VInt 0; VInt (-1); VFloat float_3_5; VInt 7])
  = Raise (Invalid (MsgAlternating 1 2) [PIdx 1])
  /\ alternating_signs (VList [VInt (-5); VInt 0; VInt (-1)])
     = Ok (VList [VInt (-5); VInt 0; VInt (-1)]).
Proof.
  split.
  - destruct (alternating_signs_spec
                [VInt 5; VInt 0; VInt (-1); VFloat float_3_5; VInt 7]
                [false; false; true; false; false] eq_refl) as (_ & H & _).
    apply (H 0 false); try reflexivity. intros j x y Hj. lia.
  - destruct (alternating_signs_spec
                [VInt (-5); VInt 0; VInt (-1)]
                [true; false; true] eq_refl) as (H & _).
    apply H. intros [|[|[|i]]] a b Ha Hb; cbn in Ha, Hb; congruence.
Defined.

(** ** The cache is only read at command time *)

Lemma frame_ret {A : Type} (a : A) : frame (ret a).
Proof. intros c; reflexivity. Qed.

Lemma frame_raise {A : Type} (e : exn) : frame (@raise A e).
Proof. intros c; reflexivity. Qed.

Lemma frame_lift {A : Type} (r : result A) : frame (lift r).
Proof. intros c; reflexivity. Qed.

Lemma frame_get : frame get.
Proof. intros c; reflexivity. Qed.

Lemma frame_bindM {A B : Type} (m : M A) (f : A -> M B) :
  frame m -> (forall a, frame (f a)) -> frame (bindM m f).
Proof.
  intros Hm Hf c. unfold bindM. specialize (Hm c).
  destruct (m c) as [[a|e] c']; cbn in Hm; subst; [apply Hf | reflexivity].
Qed.

Lemma frame_try {A : Type} (m : M A) (h : msg -> list pathkey -> M A) :
  frame m -> (forall x p, frame (h x p)) -> frame (try_except_Invalid m h).
Proof.
  intros Hm Hh c. unfold try_except_Invalid. specialize (Hm c).
  destruct (m c) as [[a|e] c']; cbn in Hm; subst; [reflexivity|].
  destruct e; try reflexivity. apply Hh.
Qed.

Create HintDb frame.
#[local] Hint Resolve frame_ret frame_raise frame_lift frame_get : frame.

Ltac frame_step :=
  first [ apply frame_bindM; [|intros ?]
        | apply frame_try; [|intros ? ?]
        | solve [auto with frame]
        | match goal with
          | |- frame (match ?x with _ => _ end) => destruct x
          | |- frame (if ?x then _ else _) => destruct x
          end ].

Lemma validate_protocol_name_frame (proto_name : pyval) :
  frame (validate_protocol_name proto_name).
Proof. unfold validate_protocol_name. repeat frame_step. Qed.

Lemma get_proto_def_frame (proto_name : pyval) :
  frame (get_proto_def proto_name).
Proof.
  unfold get_proto_def.
  apply frame_bindM; [apply validate_protocol_name_frame | intros ?].
  repeat frame_step.
Qed.

Lemma get_proto_signature_frame (env : python) (proto_name : pyval) :
  frame (get_proto_signature env proto_name).
Proof.
  unfold get_proto_signature.
  apply frame_bindM; [apply get_proto_def_frame | intros ?].
  repeat frame_step.
Qed.

Lemma args_to_dict_frame (env : python) (proto : pyval) (args : list pyval) :
  frame (args_to_dict env proto args).
Proof.
  unfold args_to_dict.
  apply frame_bindM; [apply get_proto_def_frame | intros ?].
  repeat frame_step.
Qed.

Lemma validate_command_frame (env : python) (command : command_t) :
  frame (validate_command env command).
Proof.
  destruct command as [protocol args]. intros c. unfold validate_command.
  pose proof (validate_protocol_name_frame protocol c) as Hc.
  destruct (validate_protocol_name protocol c) as [r c1]. cbn in Hc. subst c1.
  destruct (both _ _) as [[protocol' args']|e]; [|reflexivity].
  apply frame_try.
  - apply frame_bindM; [apply args_to_dict_frame | intros ?].
    repeat frame_step.
  - intros x p.
    apply frame_bindM; [apply get_proto_signature_frame | intros ?].
    repeat frame_step.
Qed.

Lemma validate_send_command_frame (env : python) (command : pyval) :
  frame (validate_send_command env command).
Proof.
  unfold validate_send_command.
  apply frame_bindM; [auto with frame | intros s].
  destruct (quoted_split s ":") as [|protocol [|a args]]; auto with frame.
  apply validate_command_frame.
Qed.

(** C7.  Every command-time operation returns the cache it was given, its
    three entries untouched, whether it returns or raises. *)
Theorem command_time_frame :
  forall env (c : PROTO_CACHE_t),
    (forall command, snd (validate_send_command env command c) = c)
    /\ (forall command, snd (validate_command env command c) = c)
    /\ (forall proto_name, snd (get_proto_def proto_name c) = c)
    /\ (forall proto_name, snd (get_proto_signature env proto_name c) = c).
Proof.
  intros env c. repeat split; intros x.
  - apply validate_send_command_frame.
  - apply validate_command_frame.
  - apply get_proto_def_frame.
  - apply get_proto_signature_frame.
Qed.


(** ** Looking a protocol up *)

Lemma lower_char_idem (c : ascii) : lower_char (lower_char c) = lower_char c.
Proof. destruct c as [[] [] [] [] [] [] [] []]; reflexivity. Qed.

Lemma lower_idem (s : string) : lower (lower s) = lower s.
Proof.
  induction s as [|c s IH]; cbn; [reflexivity|].
  now rewrite lower_char_idem, IH.
Qed.

Lemma dict_get_in {A : Type} (k : string) (d : list (string * A)) (a : A) :
  dict_get k d = Some a -> dict_in k d = true.
Proof. unfold dict_in. now intros ->. Qed.

Lemma validate_protocol_name_found (c : PROTO_CACHE_t) (defs : catalog)
  (N S : string) (pd : proto_def) :
  PROTO_DEF c = Some defs -> dict_get N defs = Some pd -> lower S = N ->
  validate_protocol_name (VStr S) c = (Ok N, c).
Proof.
  intros Hc HN HS. unfold validate_protocol_name, bindM, lift, get. cbn.
  rewrite Hc, HS, (dict_get_in _ _ _ HN). reflexivity.
Qed.

(** C5 (as amended).  The name asked for is lowercased and then looked up
    as it is: when a protocol is stored under a lowercase name [N], every
    [S] whose lowercase form is [N] is resolved to [N] by
    [validate_protocol_name], validating a command for [S] is validating it
    for [N], the arguments being matched against the definition stored
    under [N], and [get_proto_def] of [N] returns that definition. *)
Theorem lookup_lowercases_request :
  forall env (c : PROTO_CACHE_t) defs N S pd,
    PROTO_DEF c = Some defs ->
    dict_get N defs = Some pd ->
    lower S = N ->
    validate_protocol_name (VStr S) c = (Ok N, c)
    /\ get_proto_def (VStr N) c = (Ok pd, c)
    /\ (forall args,
           args_to_dict env (VStr N) args c
           = (if (List.length (proto_args pd) <? List.length args)%nat
              then Raise (Invalid (MsgExpectedMaximum
                                     (List.length (proto_args pd)) N) [])
              else Ok (args_to_dict_loop (proto_args pd) args []), c))
    /\ (forall args,
           validate_command env (VStr S, args) c
           = validate_command env (VStr N, args) c).
Proof.
  intros env c defs N S pd Hc HN HS.
  assert (HNN : lower N = N) by (rewrite <- HS; apply lower_idem).
  assert (Hdef : get_proto_def (VStr N) c = (Ok pd, c)).
  { unfold get_proto_def, bindM.
    rewrite (validate_protocol_name_found c defs N N pd Hc HN HNN).
    cbn. rewrite Hc, HN. reflexivity. }
  repeat split.
  - exact (validate_protocol_name_found c defs N S pd Hc HN HS).
  - exact Hdef.
  - intros args. unfold args_to_dict, bindM. rewrite Hdef.
    destruct (List.length (proto_args pd) <? List.length args)%nat; reflexivity.
  - intros args. unfold validate_command.
    rewrite (validate_protocol_name_found c defs N S pd Hc HN HS).
    rewrite (validate_protocol_name_found c defs N N pd Hc HN HNN).
    reflexivity.
Qed.

Lemma lookup_lowercases_request_witness :
  validate_protocol_name (VStr "BeeP") beep_cache = (Ok "beep"%string, beep_cache)
  /\ validate_command demo_env (VStr "BeeP", [VStr "440"]) beep_cache
     = validate_command demo_env (VStr "beep", [VStr "440"]) beep_cache.
Proof.
  destruct (lookup_lowercases_request demo_env beep_cache beep_catalog
              "beep"%string "BeeP"%string
              {| proto_desc := VStr "beeper"; proto_type := VStr "IR";
                 proto_link := None; proto_note := None;
                 proto_args := [beep_freq; beep_duration] |}
              eq_refl eq_refl eq_refl) as (H1 & _ & _ & H4).
  split; [exact H1 | exact (H4 [VStr "440"])].
Defined.

(** C5 as stated fails twice: [get_proto_def] indexes the definitions
    with the name as it was asked for, so [BEEP] passes the name check and
    then misses the definition stored under [beep]; and a protocol stored
    under a name with a capital is not found under any spelling, its own
    included. *)
Lemma lookup_is_case_sensitive :
  fst (validate_protocol_name (VStr "BEEP") beep_cache) = Ok "beep"%string
  /\ fst (get_proto_def (VStr "BEEP") beep_cache) = Raise KeyError
  /\ fst (initialize demo_env Beep_catalog empty_cache) = Ok tt
  /\ fst (validate_protocol_name (VStr "Beep")
            (snd (initialize demo_env Beep_catalog empty_cache)))
     = Raise (Invalid (MsgNotDefined "beep") [])
  /\ fst (validate_protocol_name (VStr "beep")
            (snd (initialize demo_env Beep_catalog empty_cache)))
     = Raise (Invalid (MsgNotDefined "beep") []).
Proof. repeat split. Qed.

(** ** End to end *)

(** C1.  With the one protocol [beep] of a required [freq] and an optional
    [duration] of default 100, both [uint16_t]: the catalog loads;
    [beep:440] validates to the protocol [beep] with the arguments 440 and
    100; [beep:440:200:99] fails for holding more values than the two
    arguments declared; [unknown:1] fails for naming no protocol of the
    catalog. *)
Theorem beep_end_to_end :
  forall env,
    let cache := snd (initialize env beep_catalog empty_cache) in
    fst (initialize env beep_catalog empty_cache) = Ok tt
    /\ fst (validate_send_command env (VStr "beep:440") cache)
       = Ok (VStr "beep", [VInt 440; VInt 100])
    /\ (exists signature,
           fst (validate_send_command env (VStr "beep:440:200:99") cache)
           = Raise (Invalid
                      (MsgMalformatted "beep" signature
                         ("beep"%string, [VStr "440"; VStr "200"; VStr "99"])
                         None (MsgExpectedMaximum 2 "beep")) []))
    /\ fst (validate_send_command env (VStr "unknown:1") cache)
       = Raise (Invalid (MsgNotDefined "unknown") [PKey "protocol"]).
Proof.
  intros env cache. subst cache. repeat split.
  eexists. reflexivity.
Qed.

(** ** The schema compiler *)

Lemma prepend_vol_All (fs : list validator) :
  forall path v, prepend path (vol_All fs v) = prepend path (run_chain fs v).
Proof.
  induction fs as [|f fs IH]; intros path v; cbn [vol_All run_chain];
    [reflexivity|].
  destruct (f v) as [v'|e]; cbn [prepend bind]; [apply IH|].
  destruct e; cbn [prepend bind app]; try reflexivity.
  now rewrite app_nil_r.
Qed.

Lemma extra_validator_declared (env : python) (cv : string) (a : pyval) :
  fst (extra_validator env cv a) = declared_constraint env cv a.
Proof.
  destruct a; try reflexivity.
  unfold extra_validator, declared_constraint, positional, keywords.
  destruct (dict_get "args" d) as [[]|]; reflexivity.
Qed.

Lemma extra_validators_declared (env : python) (items : list (string * pyval)) :
  forall val0 val items',
    extra_validators env items val0 = (Ok val, items') ->
    exists cs,
      declared_constraints env items = Ok cs /\ val = val0 ++ cs.
Proof.
  induction items as [|[cv a] items IH]; intros val0 val items' H.
  - cbn in H. injection H as <- <-. exists []. now rewrite app_nil_r.
  - cbn [extra_validators declared_constraints] in *.
    rewrite <- extra_validator_declared.
    destruct (extra_validator env cv a) as [[o|e] a']; [|discriminate].
    cbn [fst bind].
    destruct (extra_validators env items _) as [r rest] eqn:E.
    injection H as -> <-.
    apply IH in E. destruct E as (cs & -> & ->). cbn [bind].
    destruct o as [f|]; eexists; split; try reflexivity.
    now rewrite <- app_assoc.
Qed.

Lemma generate_arg_schema_declared (env : python) (arg : arg_def)
  (val : validator) (arg' : arg_def) :
  generate_arg_schema env arg = (Ok val, arg') ->
  compiled_as_declared env arg val.
Proof.
  unfold generate_arg_schema, compiled_as_declared, schema_items_of.
  intros H.
  destruct (type_validator env (arg_type arg)) as [base|e]; [|discriminate].
  exists base.
  assert (Hone : forall path v,
             prepend path (base v) = prepend path (run_chain [base] v)).
  { intros path v. cbn. destruct (base v); reflexivity. }
  destruct (arg_schema arg) as [items|].
  - destruct (extra_validators env items [base]) as [r items'] eqn:E.
    destruct r as [val0|e]; [|discriminate].
    apply extra_validators_declared in E. destruct E as (cs & Hcs & ->).
    exists cs. split; [reflexivity|]. split; [exact Hcs|].
    cbn [app bind] in H.
    destruct cs as [|f cs]; injection H as <- <-; [exact Hone|].
    intros path v. exact (prepend_vol_All (base :: f :: cs) path v).
  - exists []. split; [reflexivity|]. split; [reflexivity|].
    cbn [bind] in H. injection H as <- <-. exact Hone.
Qed.

Lemma schema_set_fresh (key : schema_key) (val : validator)
  (items : list (schema_key * validator)) :
  ~ In (key_name key) (item_names items) ->
  schema_set key val items = items ++ [(key, val)].
Proof.
  induction items as [|[k v] items IH]; intros H; cbn; [reflexivity|].
  destruct (String.eqb_spec (key_name key) (key_name k)) as [E|E].
  - exfalso. apply H. left. now rewrite E.
  - rewrite IH; [reflexivity|]. intros Hin. apply H. now right.
Qed.

Lemma generate_arg_schema_keeps (env : python) (arg : arg_def) :
  arg_name (snd (generate_arg_schema env arg)) = arg_name arg
  /\ arg_type (snd (generate_arg_schema env arg)) = arg_type arg
  /\ arg_default (snd (generate_arg_schema env arg)) = arg_default arg.
Proof.
  unfold generate_arg_schema.
  destruct (type_validator env (arg_type arg)); [|now cbn].
  destruct (arg_schema arg) as [items|]; [|now cbn].
  destruct (extra_validators env items [a]). now cbn.
Qed.

Lemma generate_arg_schema_in_keeps (env : python)
  (anchor : string -> option nat) (arg : arg_def) (h : heap) :
  arg_name (snd (fst (generate_arg_schema_in env anchor arg h))) = arg_name arg
  /\ arg_default (snd (fst (generate_arg_schema_in env anchor arg h)))
     = arg_default arg.
Proof.
  unfold generate_arg_schema_in.
  destruct (type_validator env (arg_type arg)); [|now cbn].
  destruct (arg_schema arg) as [items|]; [|now cbn].
  destruct (extra_validators_in env anchor items [a] (Ok tt) h) as [[r items'] h'].
  now cbn.
Qed.

(** What [generate_args] installs: one key per argument, in order, with
    the validator that [generate_arg_schema] returned for the argument on
    the objects as they were at its turn. *)
Lemma generate_args_spec (env : python) (anchor : nat -> string -> option nat)
  (args : list arg_def) :
  forall j items0 names0 built0 h sch built args' h',
    generate_args env anchor j args items0 names0 built0 h
    = (Ok (sch, built), args', h') ->
    NoDup (map arg_name args) ->
    (forall n, In n (map arg_name args) -> ~ In n (item_names items0)) ->
    exists new,
      schema_items sch = items0 ++ new
      /\ schema_names sch = names0 ++ map arg_name args
      /\ Forall2 (fun arg item =>
                    key_name (fst item) = arg_name arg
                    /\ key_default (fst item) = arg_default arg
                    /\ exists i h1 b arg1 h2,
                         generate_arg_schema_in env (anchor i) arg h1
                         = (Ok (snd item, b), arg1, h2))
                 args new.
Proof.
  induction args as [|arg args IH];
    intros j items0 names0 built0 h sch built args' h' H Hnd Hfresh.
  - cbn in H. injection H as <- _ _ _. exists []. cbn.
    rewrite !app_nil_r. repeat split. constructor.
  - cbn [generate_args] in H.
    destruct (generate_arg_schema_in env (anchor j) arg h)
      as [[[[val b]|e] arg1] h1] eqn:E; [|discriminate].
    destruct (generate_args env anchor (S j) args _ _ _ h1) as [[r rest] h2] eqn:G.
    injection H as -> _ _.
    cbn [map] in Hnd. inversion Hnd as [|x l Hx Hnd']; subst.
    rewrite schema_set_fresh in G by (apply Hfresh; now left).
    apply IH in G; [|assumption|].
    + destruct G as (new & Hitems & Hnames & Hall).
      exists (({| key_name := arg_name arg; key_default := arg_default arg |},
               val) :: new).
      rewrite Hitems, Hnames, <- !app_assoc. repeat split.
      constructor; [|exact Hall]. cbn. repeat split.
      exists j, h, b, arg1, h1. exact E.
    + intros n Hn Hin. unfold item_names in Hin.
      rewrite map_app in Hin. apply in_app_or in Hin.
      destruct Hin as [Hin | [<- | []]].
      * apply (Hfresh n); [now right | exact Hin].
      * cbn in Hx. contradiction.
Qed.

Lemma dict_get_set_eq {A : Type} (k : string) (a : A) (d : list (string * A)) :
  dict_get k (dict_set k a d) = Some a.
Proof.
  induction d as [|[k' a'] d IH]; cbn.
  - now rewrite String.eqb_refl.
  - destruct (String.eqb_spec k k') as [E|E]; cbn.
    + subst. now rewrite String.eqb_refl.
    + destruct (String.eqb_spec k k'); [contradiction | exact IH].
Qed.

Lemma dict_get_set_neq {A : Type} (k k' : string) (a : A)
  (d : list (string * A)) :
  k <> k' -> dict_get k (dict_set k' a d) = dict_get k d.
Proof.
  intros Hk. induction d as [|[k1 a1] d IH]; cbn.
  - destruct (String.eqb_spec k k'); [contradiction | reflexivity].
  - destruct (String.eqb_spec k' k1) as [E|E]; cbn.
    + subst. destruct (String.eqb_spec k k1); [contradiction | reflexivity].
    + destruct (String.eqb_spec k k1); [reflexivity | exact IH].
Qed.

Lemma generate_protos_spec (env : python)
  (anchor : string -> nat -> string -> option nat) (protos : catalog) :
  forall schemas0 h schemas protos' h',
    generate_protos env anchor protos schemas0 h = (Ok schemas, protos', h') ->
    NoDup (map fst protos) ->
    (forall name pd,
        In (name, pd) protos ->
        exists sch built args' h1 h2,
          generate_args env (anchor name) 0 (proto_args pd) [] [] [] h1
          = (Ok (sch, built), args', h2)
          /\ dict_get name schemas = Some sch)
    /\ (forall name,
          ~ In name (map fst protos) ->
          dict_get name schemas = dict_get name schemas0).
Proof.
  induction protos as [|[n p] protos IH];
    intros schemas0 h schemas protos' h' H Hnd.
  - cbn in H. injection H as <- <- <-. split; [intros ? ? [] | reflexivity].
  - cbn [generate_protos] in H.
    destruct (generate_args env (anchor n) 0 (proto_args p) [] [] [] h)
      as [[[[sch built]|e] args1] h1] eqn:G; [|discriminate].
    destruct (build_schema built); [|discriminate].
    destruct (generate_protos env anchor protos _ h1) as [[r rest] h2] eqn:P.
    injection H as -> <- <-.
    cbn [map fst] in Hnd. inversion Hnd as [|x l Hx Hnd']; subst.
    destruct (IH _ _ _ _ _ P Hnd') as [IH1 IH2]. split.
    + intros name pd [Heq | Hin].
      * injection Heq as -> ->. exists sch, built, args1, h, h1.
        split; [exact G|].
        rewrite (IH2 name Hx). apply dict_get_set_eq.
      * apply IH1. exact Hin.
    + intros name Hname. rewrite IH2.
      * apply dict_get_set_neq. intros ->. apply Hname. now left.
      * intros Hin. apply Hname. now right.
Qed.

(** ** Loading the catalog *)

Lemma visit_ok {A B : Type} (f : nat -> A -> result B) (l : list A) :
  forall i first out res,
    visit f i l first out = Ok res ->
    first = None
    /\ exists bs,
        res = out ++ bs /\ Forall2 (fun a b => exists j, f j a = Ok b) l bs.
Proof.
  induction l as [|a l IH]; intros i first out res H; cbn [visit] in H.
  - destruct first; [discriminate|]. injection H as <-.
    split; [reflexivity|]. exists []. rewrite app_nil_r. split; constructor.
  - destruct (f i a) as [b|e] eqn:E.
    + apply IH in H. destruct H as (-> & bs & -> & Hall).
      split; [reflexivity|]. exists (b :: bs). rewrite <- app_assoc.
      split; [reflexivity|]. constructor; eauto.
    + destruct e; try discriminate.
      apply IH in H. destruct H as (H & _). destruct first; discriminate.
Qed.

Lemma Forall2_in_left {A B : Type} (P : A -> B -> Prop) (l : list A)
  (bs : list B) (a : A) :
  Forall2 P l bs -> In a l -> exists b, In b bs /\ P a b.
Proof.
  induction 1 as [|x y l bs Hxy Hall IH]; intros Hin; [contradiction|].
  destruct Hin as [<- | Hin].
  - exists y. split; [now left | exact Hxy].
  - destruct (IH Hin) as (b & Hb & Hab). exists b. split; [now right | exact Hab].
Qed.

Lemma Forall2_map_eq {A B C : Type} (P : A -> B -> Prop) (g : B -> C)
  (h : A -> C) (l : list A) (bs : list B) :
  Forall2 P l bs -> (forall a b, P a b -> g b = h a) -> map g bs = map h l.
Proof.
  induction 1 as [|x y l bs Hxy Hall IH]; intros H; cbn; [reflexivity|].
  now rewrite (H x y Hxy), IH.
Qed.

Lemma both_ok {A B : Type} (r1 : result A) (r2 : result B) (a : A) (b : B) :
  both r1 r2 = Ok (a, b) -> r1 = Ok a /\ r2 = Ok b.
Proof.
  unfold both. destruct r1 as [a'|[]], r2 as [b'|[]]; try discriminate.
  intros H. injection H as <- <-. split; reflexivity.
Qed.

Lemma prepend_ok {A : Type} (path : list pathkey) (r : result A) (a : A) :
  prepend path r = Ok a -> r = Ok a.
Proof. destruct r as [a'|[]]; cbn; congruence. Qed.

Lemma optional_valid (o o' : option pyval) :
  optional valid o = Ok o' -> o' = o.
Proof. destruct o; cbn; congruence. Qed.

Lemma SCHEMA_SCHEMA_same (items out : list (string * pyval)) :
  SCHEMA_SCHEMA items = Ok out -> out = items.
Proof.
  unfold SCHEMA_SCHEMA. intros H. apply visit_ok in H.
  destruct H as (_ & bs & -> & Hall). cbn [app].
  rewrite <- (map_id bs), <- (map_id items).
  apply (Forall2_map_eq _ _ _ _ _ Hall).
  intros [cv a] b [j Hj]. unfold id.
  destruct (existsb _ _); [|discriminate].
  destruct a; try discriminate; congruence.
Qed.

Lemma optional_SCHEMA_SCHEMA (o o' : option (list (string * pyval))) :
  optional SCHEMA_SCHEMA o = Ok o' -> o' = o.
Proof.
  destruct o as [items|]; cbn; [|congruence].
  destruct (SCHEMA_SCHEMA items) as [out|] eqn:E; cbn; [|discriminate].
  apply SCHEMA_SCHEMA_same in E. congruence.
Qed.

Lemma generate_arg_schema_ext (env : python) (a b : arg_def) :
  arg_type a = arg_type b -> arg_schema a = arg_schema b ->
  fst (generate_arg_schema env a) = fst (generate_arg_schema env b).
Proof.
  intros Ht Hs. unfold generate_arg_schema. rewrite Ht, Hs.
  destruct (type_validator env (arg_type b)); [|reflexivity].
  destruct (arg_schema b) as [items|]; [|reflexivity].
  destruct (extra_validators env items [a0]). reflexivity.
Qed.

(** What a successful [validate_default] says. *)
Lemma validate_default_ok (env : python) (arg a1 : arg_def) :
  validate_default env arg = Ok a1 ->
  arg_name a1 = arg_name arg
  /\ forall d, arg_default arg = Some d ->
              exists val d',
                fst (generate_arg_schema env arg) = Ok val
                /\ val d = Ok d' /\ arg_default a1 = Some d'.
Proof.
  unfold validate_default. intros H.
  destruct (arg_default arg) as [d|] eqn:Ed.
  - pose proof (generate_arg_schema_keeps env arg) as (Hn & _ & _).
    destruct (generate_arg_schema env arg) as [[val|e] arg'];
      [|discriminate]. cbn [bind] in H. cbn [snd] in Hn.
    destruct (val d) as [d'|e] eqn:Ev; [|destruct e; discriminate].
    injection H as <-. split; [exact Hn|].
    intros d0 Hd0. injection Hd0 as <-. exists val, d'. repeat split. exact Ev.
  - injection H as <-. split; [reflexivity | discriminate].
Qed.

Lemma ARGS_SCHEMA_ok (env : python) (arg a1 : arg_def) :
  ARGS_SCHEMA env arg = Ok a1 ->
  arg_name a1 = arg_name arg
  /\ forall d, arg_default arg = Some d ->
              exists val d',
                fst (generate_arg_schema env arg) = Ok val
                /\ val d = Ok d' /\ arg_default a1 = Some d'.
Proof.
  unfold ARGS_SCHEMA. intros H.
  destruct (both _ _) as [checked|] eqn:E; [|discriminate]. cbn [bind] in H.
  destruct checked as (n & t & desc & default & example & schema).
  apply both_ok in E. destruct E as (_ & E).
  apply both_ok in E. destruct E as (_ & E).
  apply both_ok in E. destruct E as (_ & E).
  apply both_ok in E. destruct E as (Hd & E).
  apply both_ok in E. destruct E as (_ & Hs).
  apply prepend_ok, optional_valid in Hd.
  apply prepend_ok, optional_SCHEMA_SCHEMA in Hs. subst.
  apply validate_default_ok in H. cbn [arg_name arg_default] in H.
  destruct H as (Hn & Hdef). split; [exact Hn|].
  intros d Hd. destruct (Hdef d Hd) as (val & d' & Hg & Hv & Hd').
  exists val, d'. repeat split; try assumption.
  rewrite <- Hg. apply generate_arg_schema_ext; reflexivity.
Qed.

Lemma has_duplicates_NoDup (l : list string) :
  has_duplicates l = false -> NoDup l.
Proof.
  induction l as [|x l IH]; cbn; intros H; constructor.
  - apply orb_false_elim in H. destruct H as [H _].
    intros Hin. assert (E : existsb (String.eqb x) l = true).
    { apply existsb_exists. exists x. split; [exact Hin | apply String.eqb_refl]. }
    congruence.
  - apply IH. apply orb_false_elim in H. tauto.
Qed.

Lemma PROTOCOL_DEF_SCHEMA_ok (env : python) (p p' : proto_def) :
  PROTOCOL_DEF_SCHEMA env p = Ok p' ->
  NoDup (map arg_name (proto_args p))
  /\ forall arg, In arg (proto_args p) -> exists a1, ARGS_SCHEMA env arg = Ok a1.
Proof.
  unfold PROTOCOL_DEF_SCHEMA. intros H.
  destruct (both _ _) as [checked|] eqn:E; [|discriminate]. clear H.
  destruct checked as (desc & t & link & note & args).
  apply both_ok in E. destruct E as (_ & E).
  apply both_ok in E. destruct E as (_ & E).
  apply both_ok in E. destruct E as (_ & E).
  apply both_ok in E. destruct E as (_ & E).
  apply prepend_ok in E.
  destruct (visit _ 0 (proto_args p) None []) as [args1|] eqn:V;
    [|discriminate]. cbn [bind] in E.
  destruct (vol_Length_min1 args1) as [args2|] eqn:L; [|discriminate].
  cbn [bind] in E.
  assert (args2 = args1) by (destruct args1; cbn in L; congruence). subst.
  unfold unique_field_value in E.
  destruct (has_duplicates (map arg_name args1)) eqn:D; [discriminate|].
  apply visit_ok in V. destruct V as (_ & bs & -> & Hall). cbn [app] in *.
  split.
  - rewrite <- (Forall2_map_eq _ arg_name arg_name _ _ Hall).
    + now apply has_duplicates_NoDup.
    + intros a b [j Hj]. apply prepend_ok in Hj. now apply ARGS_SCHEMA_ok in Hj.
  - intros arg Hin.
    destruct (Forall2_in_left _ _ _ _ Hall Hin) as (b & _ & j & Hj).
    apply prepend_ok in Hj. eauto.
Qed.

Lemma PROTOCOLS_SCHEMA_ok (env : python) (value out : catalog) :
  PROTOCOLS_SCHEMA env value = Ok out ->
  forall name pd,
    In (name, pd) value -> exists p', PROTOCOL_DEF_SCHEMA env pd = Ok p'.
Proof.
  unfold PROTOCOLS_SCHEMA. intros H name pd Hin.
  apply visit_ok in H. destruct H as (_ & bs & _ & Hall).
  destruct (Forall2_in_left _ _ _ _ Hall Hin) as (b & _ & j & Hj).
  cbv beta iota in Hj.
  destruct (valid_name (VStr name)); [|discriminate Hj].
  destruct (PROTOCOL_DEF_SCHEMA env pd) as [p'|[]]; eauto; discriminate Hj.
Qed.

(** A catalog that loads has argument names unique in each protocol and
    every declared default accepted by the validator of its argument. *)
Lemma load_protocols_ok (env : python) (proto_yaml defs : parsed_file) :
  load_protocols env proto_yaml = Ok defs ->
  defs = proto_yaml
  /\ forall name pd,
      In (name, pd) proto_yaml ->
      NoDup (map arg_name (proto_args pd))
      /\ forall arg d,
          In arg (proto_args pd) -> arg_default arg = Some d ->
          exists val d',
            fst (generate_arg_schema env arg) = Ok val /\ val d = Ok d'.
Proof.
  unfold load_protocols. intros H.
  destruct (PROTOCOLS_SCHEMA env proto_yaml) as [out|] eqn:E; [|discriminate].
  cbn [bind] in H. injection H as <-. split; [reflexivity|].
  intros name pd Hin.
  destruct (PROTOCOLS_SCHEMA_ok _ _ _ E _ _ Hin) as [p' Hp'].
  apply PROTOCOL_DEF_SCHEMA_ok in Hp'. destruct Hp' as [Hnd Hargs].
  split; [exact Hnd|].
  intros arg d Harg Hd. destruct (Hargs arg Harg) as [a1 Ha1].
  apply ARGS_SCHEMA_ok in Ha1. destruct Ha1 as [_ Ha1].
  destruct (Ha1 d Hd) as (val & d' & Hg & Hv & _). eauto.
Qed.

Lemma initialize_ok (env : python) (proto_yaml : parsed_file)
  (c0 c1 : PROTO_CACHE_t) :
  initialize env proto_yaml c0 = (Ok tt, c1) ->
  load_protocols env proto_yaml = Ok proto_yaml
  /\ exists schemas defs',
      generate_proto_schema env proto_yaml = (Ok schemas, defs')
      /\ c1 = {| PROTO_DEF := Some defs'; PROTO_SCHEMA := Some schemas;
                 VALID_PROTOCOLS := Some (map fst defs') |}.
Proof.
  unfold initialize, bindM, lift, get, put. intros H.
  destruct (load_protocols env proto_yaml) as [defs|] eqn:L; [|discriminate].
  destruct (load_protocols_ok _ _ _ L) as [-> _]. split; [reflexivity|].
  destruct (generate_proto_schema env proto_yaml) as [[schemas|e] defs'];
    [|discriminate].
  cbn in H. injection H as <-. eauto.
Qed.


(** The keys of an installed schema: one per declared argument, in order,
    each with the validator that [generate_arg_schema] returned for the
    argument on the objects as they were at its turn. *)
Lemma installed_schema (env : python) (proto_yaml : parsed_file)
  (c0 c1 : PROTO_CACHE_t) :
  NoDup (map fst proto_yaml) ->
  initialize env proto_yaml c0 = (Ok tt, c1) ->
  forall name pd,
    In (name, pd) proto_yaml ->
    exists schemas sch,
      PROTO_SCHEMA c1 = Some schemas
      /\ dict_get name schemas = Some sch
      /\ schema_names sch = map arg_name (proto_args pd)
      /\ Forall2 (fun arg item =>
                    key_name (fst item) = arg_name arg
                    /\ key_default (fst item) = arg_default arg
                    /\ exists i h1 b arg1 h2,
                         generate_arg_schema_in env (anchor proto_yaml name i)
                           arg h1
                         = (Ok (snd item, b), arg1, h2))
                 (proto_args pd) (schema_items sch).
Proof.
  intros Hnd Hinit name pd Hin.
  apply initialize_ok in Hinit.
  destruct Hinit as (Hload & schemas & defs' & Hgen & ->).
  destruct (load_protocols_ok _ _ _ Hload) as [_ Hok].
  destruct (Hok name pd Hin) as [Hargs _].
  unfold generate_proto_schema in Hgen.
  destruct (generate_protos env (anchor proto_yaml) proto_yaml [] [])
    as [[r protos'] h'] eqn:G.
  injection Hgen as -> _.
  destruct (generate_protos_spec _ _ _ _ _ _ _ _ G Hnd) as [Hsch _].
  destruct (Hsch name pd Hin) as (sch & built & args' & h1 & h2 & Hga & Hget).
  apply generate_args_spec in Hga; [|exact Hargs | intros ? _ []].
  destruct Hga as (new & Hitems & Hnames & Hall).
  exists schemas, sch. cbn [app] in Hitems, Hnames.
  rewrite Hitems, Hnames. repeat split; assumption.
Qed.


(** *** A file without alias or merge *)

Lemma extra_validators_in_unshared (env : python)
  (anchor : string -> option nat) (items : list (string * pyval)) :
  (forall cv, anchor cv = None) ->
  forall val built h,
    exists b,
      extra_validators_in env anchor items val built h
      = (match fst (extra_validators env items val) with
         | Ok v => Ok (v, b)
         | Raise e => Raise e
         end, snd (extra_validators env items val), h).
Proof.
  intros Hnone. induction items as [|[cv a] items IH]; intros val built h.
  - cbn. eauto.
  - cbn [extra_validators_in extra_validators]. rewrite Hnone.
    cbn [deref update].
    destruct (extra_validator env cv a) as [[o|e] a']; [|cbn; eauto].
    destruct (IH (match o with Some f => val ++ [f] | None => val end)
                 (_ <- built ;; constraint_compiles env cv a)%result h)
      as [b ->].
    destruct (extra_validators env items _) as [r rest]. cbn. eauto.
Qed.

Lemma generate_arg_schema_in_unshared (env : python)
  (anchor : string -> option nat) (arg : arg_def) (h : heap) :
  (forall cv, anchor cv = None) ->
  forall val b arg' h',
    generate_arg_schema_in env anchor arg h = (Ok (val, b), arg', h') ->
    generate_arg_schema env arg = (Ok val, arg') /\ h' = h.
Proof.
  intros Hnone val b arg' h'. unfold generate_arg_schema_in, generate_arg_schema.
  destruct (type_validator env (arg_type arg)) as [base|e]; [|discriminate].
  destruct (arg_schema arg) as [items|].
  - destruct (extra_validators_in_unshared env anchor items Hnone [base]
                (Ok tt) h) as [b' ->].
    destruct (extra_validators env items [base]) as [[v|e] items'];
      cbn; [|discriminate].
    destruct v as [|v1 [|v2 v]]; intros H; injection H as <- <- <- <-;
      split; reflexivity.
  - cbn. intros H. injection H as <- <- <- <-. split; reflexivity.
Qed.

(** In a file without alias or merge, the validator installed for each
    argument is the base coercion of the declared type followed by the
    constraints declared for the argument, each with the parameters
    declared for it, in declared order, the first failure ending the
    chain, whether or not the argument declares a default. *)
Lemma unshared_validator_is_declared_chain :
  forall env (proto_yaml : parsed_file) (c0 c1 : PROTO_CACHE_t),
    (forall p j cv, anchor proto_yaml p j cv = None) ->
    NoDup (map fst proto_yaml) ->
    initialize env proto_yaml c0 = (Ok tt, c1) ->
    forall name pd,
      In (name, pd) proto_yaml ->
      exists schemas sch,
        PROTO_SCHEMA c1 = Some schemas
        /\ dict_get name schemas = Some sch
        /\ schema_names sch = map arg_name (proto_args pd)
        /\ Forall2 (fun arg item =>
                      key_name (fst item) = arg_name arg
                      /\ key_default (fst item) = arg_default arg
                      /\ compiled_as_declared env arg (snd item))
                   (proto_args pd) (schema_items sch).
Proof.
  intros env proto_yaml c0 c1 Hnone Hnd Hinit name pd Hin.
  destruct (installed_schema env proto_yaml c0 c1 Hnd Hinit name pd Hin)
    as (schemas & sch & Hs & Hget & Hnames & Hall).
  exists schemas, sch. repeat split; try assumption.
  revert Hall. generalize (schema_items sch). generalize (proto_args pd).
  induction 1 as [|arg item args items (Hk & Hd & i & h1 & b & arg1 & h2 & Hg)
                    _ IH]; constructor; [|exact IH].
  repeat split; try assumption.
  apply generate_arg_schema_in_unshared in Hg; [|intros cv; apply Hnone].
  destruct Hg as [Hg _]. eapply generate_arg_schema_declared. exact Hg.
Qed.

(** *** Building the schema of a protocol *)

(** A class of voluptuous declared with null for parameters goes into the
    validator uncalled.  The file passes the schema of the catalog; when
    the schema of the protocol is built, what building around the class
    raises ends the initialization, with the definitions in the cache and
    no schema. *)
Lemma uncalled_class_stops_initialization (env : python) (e : exn)
  (c0 : PROTO_CACHE_t) :
  vol_compile env "Any" None = Raise e ->
  load_protocols env any_catalog = Ok any_catalog
  /\ initialize env any_catalog c0
     = (Raise e, {| PROTO_DEF := Some (file_value any_catalog);
                    PROTO_SCHEMA := PROTO_SCHEMA c0;
                    VALID_PROTOCOLS := VALID_PROTOCOLS c0 |}).
Proof.
  intros H.
  assert (Hload : load_protocols env any_catalog = Ok any_catalog)
    by reflexivity.
  split; [exact Hload|].
  unfold initialize, bindM, lift, get, put. rewrite Hload.
  unfold generate_proto_schema. cbn. rewrite H. reflexivity.
Qed.

(** *** A file with an alias *)

(** C4.  The claim fails on a file in which two arguments share the
    parameters of a constraint through an anchor and an alias.  In
    [shared_catalog] the arguments [level] and [width] both declare the
    constraint [Range] with the positional parameters 0 and 10, so the
    constraint declared for each is [Range] called with 0 and 10.  After
    initialization the validator installed for [level] is the base
    coercion of [uint8_t] followed by [Range] called with 0 and 10, but
    the one installed for [width] is the base coercion followed by
    [Range] called with no parameter at all: compiling [level] has
    removed the positional parameters from the one mapping that both
    arguments hold, as the definitions left in the cache show. *)
Theorem aliased_parameters_reach_the_first_argument_only :
  forall env (c0 : PROTO_CACHE_t) f1 f2,
    py_call env "Range" [VInt 0; VInt 10] [] = Ok f1 ->
    py_call env "Range" [] [] = Ok f2 ->
    vol_compile env "Range" (Some ([VInt 0; VInt 10], [])) = Ok tt ->
    vol_compile env "Range" (Some ([], [])) = Ok tt ->
    declared_constraints env (schema_items_of shared_level) = Ok [f1]
    /\ declared_constraints env (schema_items_of shared_width) = Ok [f1]
    /\ exists c1,
        initialize env shared_catalog c0 = (Ok tt, c1)
        /\ PROTO_SCHEMA c1
           = Some [("pulse"%string,
                    {| schema_items :=
                         [({| key_name := "level"; key_default := None |},
                           vol_All [integer_range (Some 0%Z) (Some 255%Z); f1]);
                          ({| key_name := "width"; key_default := None |},
                           vol_All [integer_range (Some 0%Z) (Some 255%Z); f2])];
                       schema_names := ["level"%string; "width"%string] |})]
        /\ option_map
             (map (fun np => map schema_items_of (proto_args (snd np))))
             (PROTO_DEF c1)
           = Some [[[("Range"%string, VDict [])]; [("Range"%string, VDict [])]]].
Proof.
  intros env c0 f1 f2 H1 H2 H3 H4.
  assert (Hd : declared_constraints env [("Range"%string, limits)] = Ok [f1]).
  { cbn. rewrite H1. reflexivity. }
  split; [exact Hd|]. split; [exact Hd|].
  assert (Hgen : generate_proto_schema env shared_catalog
                 = (Ok [("pulse"%string,
                         {| schema_items :=
                              [({| key_name := "level"; key_default := None |},
                                vol_All [integer_range (Some 0%Z) (Some 255%Z);
                                         f1]);
                               ({| key_name := "width"; key_default := None |},
                                vol_All [integer_range (Some 0%Z) (Some 255%Z);
                                         f2])];
                            schema_names := ["level"%string; "width"%string] |})],
                    [("pulse"%string,
                      set_args shared_def
                        [set_schema shared_level
                           (Some [("Range"%string, VDict [])]);
                         set_schema shared_width
                           (Some [("Range"%string, VDict [])])])])).
  { unfold generate_proto_schema. cbn. rewrite H1, H3. cbn. rewrite H2, H4.
    reflexivity. }
  assert (Hload : load_protocols env shared_catalog = Ok shared_catalog)
    by reflexivity.
  unfold initialize, bindM, lift, get, put.
  rewrite Hload, Hgen. eexists. repeat split.
Qed.

Lemma aliased_parameters_reach_the_first_argument_only_witness :
  (exists c1,
      initialize demo_env shared_catalog empty_cache = (Ok tt, c1)
      /\ PROTO_SCHEMA c1
         = Some [("pulse"%string,
                  {| schema_items :=
                       [({| key_name := "level"; key_default := None |},
                         vol_All [integer_range (Some 0%Z) (Some 255%Z);
                                  vol_Range (Some 0%Z) (Some 10%Z)]);
                        ({| key_name := "width"; key_default := None |},
                         vol_All [integer_range (Some 0%Z) (Some 255%Z);
                                  fun v => Ok v])];
                     schema_names := ["level"%string; "width"%string] |})])
  /\ fst (validate_send_command demo_env (VStr "pulse:5:200") shared_cache)
     = Ok (VStr "pulse", [VInt 5; VInt 200])
  /\ fst (validate_send_command demo_env (VStr "pulse:200:5") shared_cache)
     = Raise
         (Invalid
            (MsgMalformatted "pulse" "pulse:<uint8 level>:<uint8 width>"
               ("pulse"%string, [VStr "200"; VStr "5"]) (Some (PKey "level"))
               (MsgAtMost 10))
            []).
Proof.
  split; [|split; reflexivity].
  destruct (aliased_parameters_reach_the_first_argument_only demo_env
              empty_cache (vol_Range (Some 0%Z) (Some 10%Z)) (fun v => Ok v)
              eq_refl eq_refl eq_refl eq_refl)
    as (_ & _ & c1 & Hinit & Hs & _).
  exists c1. split; assumption.
Defined.

(** ** Defaults *)

(** The compiler leaves the names of the protocols and the defaults of
    their arguments as they are. *)
Lemma generate_args_keeps (env : python) (anchor : nat -> string -> option nat)
  (args : list arg_def) :
  forall j items names built h,
    map arg_default (snd (fst (generate_args env anchor j args items names built h)))
    = map arg_default args.
Proof.
  induction args as [|arg args IH]; intros j items names built h; [reflexivity|].
  cbn [generate_args].
  pose proof (generate_arg_schema_in_keeps env (anchor j) arg h) as [_ Hk].
  destruct (generate_arg_schema_in env (anchor j) arg h) as [[[[val b]|e] arg1] h1];
    cbn [fst snd] in Hk.
  - specialize (IH (S j) (schema_set {| key_name := arg_name arg;
                                        key_default := arg_default arg |}
                            val items)
                   (names ++ [arg_name arg])
                   (dict_set (arg_name arg) b built) h1).
    destruct (generate_args env anchor (S j) args _ _ _ h1) as [[r rest] h2].
    cbn [fst snd map] in *. now rewrite Hk, IH.
  - cbn [fst snd map]. now rewrite Hk.
Qed.

Lemma refresh_args_keeps (anchor : nat -> string -> option nat) (h : heap)
  (args : list arg_def) :
  forall j, map arg_default (refresh_args anchor h j args) = map arg_default args.
Proof.
  induction args as [|arg args IH]; intros j; [reflexivity|].
  cbn [refresh_args map]. rewrite IH. f_equal.
  unfold refresh_arg. now destruct (arg_schema arg).
Qed.

Lemma generate_protos_keeps (env : python)
  (anchor : string -> nat -> string -> option nat) (protos : catalog) :
  forall schemas h,
    Forall2 (fun np np' =>
               fst np' = fst np
               /\ map arg_default (proto_args (snd np'))
                  = map arg_default (proto_args (snd np)))
            protos (snd (fst (generate_protos env anchor protos schemas h))).
Proof.
  induction protos as [|[n p] protos IH]; intros schemas h; [constructor|].
  cbn [generate_protos].
  pose proof (generate_args_keeps env (anchor n) (proto_args p) 0 [] [] [] h)
    as Hk.
  assert (Hsame : Forall2 (fun np np' : string * proto_def =>
                             fst np' = fst np
                             /\ map arg_default (proto_args (snd np'))
                                = map arg_default (proto_args (snd np)))
                          protos protos).
  { clear. induction protos; constructor; auto. }
  destruct (generate_args env (anchor n) 0 (proto_args p) [] [] [] h)
    as [[[[sch built]|e] args1] h1]; cbn [fst snd] in Hk;
    [destruct (build_schema built)|];
    try (cbn [fst snd]; constructor; [now split | exact Hsame]).
  specialize (IH (dict_set n sch schemas) h1).
  destruct (generate_protos env anchor protos _ h1) as [[r rest] h2].
  cbn [fst snd] in *. constructor; [now split | exact IH].
Qed.

Lemma refresh_keeps (anchor : string -> nat -> string -> option nat) (h : heap)
  (protos : catalog) :
  Forall2 (fun np np' =>
             fst np' = fst np
             /\ map arg_default (proto_args (snd np'))
                = map arg_default (proto_args (snd np)))
          protos (refresh anchor h protos).
Proof.
  induction protos as [|[n p] protos IH]; cbn; constructor; [|exact IH].
  cbn. split; [reflexivity | apply refresh_args_keeps].
Qed.

Lemma generate_proto_schema_keeps (env : python) (protocols : parsed_file) :
  Forall2 (fun np np' =>
             fst np' = fst np
             /\ map arg_default (proto_args (snd np'))
                = map arg_default (proto_args (snd np)))
          protocols (snd (generate_proto_schema env protocols)).
Proof.
  unfold generate_proto_schema.
  pose proof (generate_protos_keeps env (anchor protocols) protocols [] []) as H.
  destruct (generate_protos env (anchor protocols) protocols [] [])
    as [[r protos'] h]. cbn [fst snd] in *.
  pose proof (refresh_keeps (anchor protocols) h protos') as H'.
  revert H H'. generalize (refresh (anchor protocols) h protos').
  generalize (file_value protocols). clear.
  intros l l'' H. revert l''.
  induction H as [|np np' l l' [Hn Hd] Hall IH]; intros l'' H'.
  - inversion H'. constructor.
  - inversion H' as [|x np'' y l3 [Hn' Hd'] Hall']; subst.
    constructor; [split; congruence | now apply IH].
Qed.

Lemma generate_protos_names (env : python) (protocols : parsed_file) :
  map fst (snd (generate_proto_schema env protocols)) = map fst protocols.
Proof.
  pose proof (generate_proto_schema_keeps env protocols) as H.
  induction H as [|np np' l l' [Hn _] _ IH]; [reflexivity|].
  cbn [map]. now rewrite Hn, IH.
Qed.

Lemma generate_protos_stored (env : python) (protocols : parsed_file) :
  NoDup (map fst protocols) ->
  forall name pd,
    In (name, pd) protocols ->
    exists stored,
      dict_get name (snd (generate_proto_schema env protocols)) = Some stored
      /\ map arg_default (proto_args stored)
         = map arg_default (proto_args pd).
Proof.
  pose proof (generate_proto_schema_keeps env protocols) as H.
  induction H as [|[n p] [n' p'] l l' [Hn Hd] _ IH]; intros Hnd name pd Hin;
    [contradiction|].
  cbn [fst snd] in Hn, Hd. subst n'.
  cbn [map fst] in Hnd. inversion Hnd as [|x l0 Hx Hnd']; subst.
  cbn [dict_get]. destruct Hin as [Heq | Hin].
  - injection Heq as -> ->. rewrite String.eqb_refl. eauto.
  - destruct (String.eqb_spec name n) as [->|_].
    + exfalso. apply Hx. apply (in_map fst) in Hin. exact Hin.
    + now apply IH.
Qed.




(** * Further properties *)

(** ** Splitting and joining *)

Lemma string_forall_take (p : ascii -> bool) (n : nat) (s : string) :
  string_forall p s = true -> string_forall p (take n s) = true.
Proof.
  revert n; induction s as [|c s IH]; intros n H.
  - now destruct n.
  - destruct n as [|n]; [reflexivity|]. cbn in *.
    apply andb_true_iff in H. destruct H as [Hc Hs].
    now rewrite Hc, IH.
Qed.

Lemma string_forall_drop (p : ascii -> bool) (n : nat) (s : string) :
  string_forall p s = true -> string_forall p (drop n s) = true.
Proof.
  revert n; induction s as [|c s IH]; intros n H.
  - destruct n; exact H.
  - destruct n as [|n]; [exact H|]. cbn in *.
    apply andb_true_iff in H. apply IH, H.
Qed.

Lemma string_forall_get (p : ascii -> bool) (s : string) (i : nat) (c : ascii) :
  string_forall p s = true -> String.get i s = Some c -> p c = true.
Proof.
  revert i; induction s as [|c' s IH]; intros i H Hg; [discriminate|].
  cbn in H. apply andb_true_iff in H. destruct H as [Hc Hs].
  destruct i as [|i]; cbn in Hg; [congruence | eauto].
Qed.

Lemma rstrip_no_space (s : string) :
  string_forall (fun c => negb (isspace c)) s = true -> rstrip s = s.
Proof.
  induction s as [|c s IH]; intros H; [reflexivity|].
  cbn in H. apply andb_true_iff in H. destruct H as [Hc Hs].
  cbn. rewrite (IH Hs). destruct s; [|reflexivity].
  apply negb_true_iff in Hc. now rewrite Hc.
Qed.

Lemma strip_no_space (s : string) :
  string_forall (fun c => negb (isspace c)) s = true -> strip s = s.
Proof.
  intros H. unfold strip.
  assert (E : lstrip s = s).
  { destruct s as [|c s]; [reflexivity|]. cbn in *.
    apply andb_true_iff in H. destruct H as [Hc _].
    apply negb_true_iff in Hc. now rewrite Hc. }
  rewrite E. now apply rstrip_no_space.
Qed.

Lemma split_at (s : string) (e : nat) (d : ascii) :
  String.get e s = Some d ->
  s = (take e s ++ String d (drop (S e) s))%string.
Proof.
  revert e; induction s as [|c s IH]; intros e H; [discriminate|].
  destruct e as [|e]; cbn in H.
  - injection H as ->. destruct s; reflexivity.
  - cbn. f_equal. now apply IH.
Qed.

Lemma take_all (n : nat) (s : string) : String.length s <= n -> take n s = s.
Proof.
  revert n; induction s as [|c s IH]; intros n H; [now destruct n|].
  destruct n as [|n]; cbn in *; [lia|]. f_equal. apply IH. lia.
Qed.

Lemma quoted_split_not_nil (d : ascii) (t : string) :
  t <> ""%string -> quoted_split t d <> [].
Proof. intros H. now rewrite quoted_split_step. Qed.

Lemma quoted_split_join (n : nat) :
  forall d text,
    String.length text <= n ->
    string_forall (fun c => negb (isspace c)) text = true ->
    String.get (String.length text - 1) text <> Some d ->
    join (String d "") (quoted_split text d) = text.
Proof.
  induction n as [|n IH]; intros d text Hn Hsp Hlast.
  - destruct text; [reflexivity | cbn in Hn; lia].
  - destruct (string_dec text "") as [->|Hne]; [reflexivity|].
    rewrite quoted_split_step by assumption.
    pose proof (re_first_le d text) as Hle.
    rewrite strip_no_space by now apply string_forall_take.
    destruct (Nat.eq_dec (re_first d text) (String.length text)) as [E|E].
    + rewrite drop_all by lia. rewrite take_all by lia. reflexivity.
    + assert (Hlt : re_first d text < String.length text) by lia.
      pose proof (re_first_delimiter d text Hlt) as Hd.
      assert (Hlt' : re_first d text + 1 < String.length text).
      { destruct (Nat.eq_dec (re_first d text + 1) (String.length text))
          as [E'|E']; [|lia].
        exfalso. apply Hlast. rewrite <- Hd. f_equal. lia. }
      assert (Hrest : drop (re_first d text + 1) text <> ""%string).
      { intros E'. apply (f_equal String.length) in E'.
        rewrite length_drop in E'. cbn [String.length] in E'. lia. }
      pose proof (quoted_split_not_nil d _ Hrest) as Hnil.
      assert (Hj : join (String d "")
                     (quoted_split (drop (re_first d text + 1) text) d)
                   = drop (re_first d text + 1) text).
      { apply IH.
        - rewrite length_drop. lia.
        - now apply string_forall_drop.
        - rewrite get_drop, length_drop.
          replace (re_first d text + 1
                   + (String.length text - (re_first d text + 1) - 1))
            with (String.length text - 1) by lia.
          assumption. }
      destruct (quoted_split (drop (re_first d text + 1) text) d) as [|t l];
        [congruence|].
      cbn [join]. cbn [join] in Hj. rewrite Hj.
      replace (re_first d text + 1) with (S (re_first d text)) by lia.
      symmetry. cbn [append]. apply split_at. exact Hd.
Qed.

(** X1.  Joining the tokens with the delimiter gives the text back: for
    a text without white space that does not end with the delimiter, the
    tokens are the pieces between the separating delimiters, quotation
    marks included. *)
Theorem quoted_split_join_round_trip :
  forall d text,
    string_forall (fun c => negb (isspace c)) text = true ->
    String.get (String.length text - 1) text <> Some d ->
    join (String d "") (quoted_split text d) = text.
Proof. intros d text. apply (quoted_split_join _ d text (le_n _)). Qed.

Lemma quoted_split_join_round_trip_witness :
  join "," (quoted_split (quoted_example ++ ",,'x,y'") ",")
  = (quoted_example ++ ",,'x,y'")%string.
Proof.
  apply (quoted_split_join_round_trip ","%char
           (quoted_example ++ ",,'x,y'")%string).
  - reflexivity.
  - discriminate.
Defined.

(** ** Commands that are refused *)

Lemma re_first_no_delimiter (d : ascii) (s : string) :
  string_forall (fun c => negb (Ascii.eqb c d)) s = true ->
  re_first d s = String.length s.
Proof.
  intros H. pose proof (re_first_le d s) as Hle.
  destruct (Nat.eq_dec (re_first d s) (String.length s)) as [E|E]; [exact E|].
  assert (Hlt : re_first d s < String.length s) by lia.
  apply re_first_delimiter in Hlt.
  apply (string_forall_get _ _ _ _ H) in Hlt.
  now rewrite Ascii.eqb_refl in Hlt.
Qed.

Lemma quoted_split_no_delimiter (d : ascii) (s : string) :
  string_forall (fun c => negb (Ascii.eqb c d)) s = true ->
  quoted_split s d = match s with
                     | EmptyString => []
                     | _ => [strip s]
                     end.
Proof.
  intros H. destruct s as [|c s]; [reflexivity|].
  rewrite quoted_split_step by discriminate.
  rewrite (re_first_no_delimiter _ _ H).
  rewrite take_all by lia. rewrite drop_all by lia. reflexivity.
Qed.

(** X2.  A command string without a colon, and such a string followed by
    one colon, has at most one token and is refused as lacking a parameter
    list, whatever the cache holds. *)
Theorem command_without_parameters_is_refused :
  forall env (c : PROTO_CACHE_t) u,
    string_forall (fun ch => negb (Ascii.eqb ch ":")) u = true ->
    let refused :=
      (@Raise command_t
         (Invalid (MsgText
           "Command string needs to have at least a protocol and a parameter list")
           []), c) in
    validate_send_command env (VStr u) c = refused
    /\ validate_send_command env (VStr (u ++ ":")) c = refused.
Proof.
  intros env c u H refused. subst refused.
  assert (E1 : quoted_split u ":" = match u with
                                    | EmptyString => []
                                    | _ => [strip u]
                                    end)
    by now apply quoted_split_no_delimiter.
  assert (E2 : exists t, quoted_split (u ++ ":") ":" = [t]).
  { destruct (string_dec u "") as [->|Hne].
    - exists ""%string. reflexivity.
    - exists (strip u).
      rewrite (quoted_split_trailing _ ":"%char u eq_refl eq_refl (le_n _) Hne).
      + rewrite E1. destruct u; [congruence | reflexivity].
      + intros Hg. apply (string_forall_get _ _ _ _ H) in Hg. discriminate Hg. }
  destruct E2 as [t E2].
  unfold validate_send_command, bindM, lift. cbn [string_strict].
  rewrite E1, E2. split; [destruct u|]; reflexivity.
Qed.

Lemma command_without_parameters_is_refused_witness :
  fst (validate_send_command demo_env (VStr "beep") beep_cache)
  = fst (validate_send_command demo_env (VStr "beep:") beep_cache).
Proof.
  destruct (command_without_parameters_is_refused demo_env beep_cache
              "beep"%string eq_refl) as [H1 H2].
  rewrite H1. change ("beep:"%string) with ("beep" ++ ":")%string.
  rewrite H2. reflexivity.
Defined.

(** X3.  A name that is not a key of the definitions once lowercased, or
    any name while the cache is not initialized, is refused by the name
    check with the lowercased name in the message, and every operation
    that looks a protocol up raises that same error and leaves the cache
    as it was; command validation reports it under the key [protocol]. *)
Theorem unknown_protocol_is_refused :
  forall env (c : PROTO_CACHE_t) S,
    match PROTO_DEF c with
    | Some defs => dict_in (lower S) defs = false
    | None => True
    end ->
    let m := match PROTO_DEF c with
             | Some _ => MsgNotDefined (lower S)
             | None => MsgText "Protocols not initialized"
             end in
    validate_protocol_name (VStr S) c = (Raise (Invalid m []), c)
    /\ get_proto_def (VStr S) c = (Raise (Invalid m []), c)
    /\ get_proto_signature env (VStr S) c = (Raise (Invalid m []), c)
    /\ (forall args,
           args_to_dict env (VStr S) args c = (Raise (Invalid m []), c))
    /\ (forall args,
           validate_command env (VStr S, args) c
           = (Raise (Invalid m [PKey "protocol"]), c)).
Proof.
  intros env c S H m. subst m.
  assert (E : validate_protocol_name (VStr S) c
              = (Raise (Invalid match PROTO_DEF c with
                                | Some _ => MsgNotDefined (lower S)
                                | None => MsgText "Protocols not initialized"
                                end []), c)).
  { unfold validate_protocol_name, bindM, lift, get. cbn.
    destruct (PROTO_DEF c); [now rewrite H | reflexivity]. }
  assert (E' : get_proto_def (VStr S) c
               = (Raise (Invalid match PROTO_DEF c with
                                 | Some _ => MsgNotDefined (lower S)
                                 | None => MsgText "Protocols not initialized"
                                 end []), c))
    by (unfold get_proto_def, bindM; now rewrite E).
  repeat split.
  - exact E.
  - exact E'.
  - unfold get_proto_signature, bindM. now rewrite E'.
  - intros args. unfold args_to_dict, bindM. now rewrite E'.
  - intros args. unfold validate_command. rewrite E.
    destruct args; reflexivity.
Qed.

Lemma unknown_protocol_is_refused_witness :
  fst (get_proto_signature demo_env (VStr "NEC") beep_cache)
  = Raise (Invalid (MsgNotDefined "nec") [])
  /\ fst (validate_command demo_env (VStr "beep", [VStr "1"]) empty_cache)
     = Raise (Invalid (MsgText "Protocols not initialized") [PKey "protocol"]).
Proof.
  split.
  - destruct (unknown_protocol_is_refused demo_env beep_cache "NEC"%string
                eq_refl) as (_ & _ & H & _).
    now rewrite H.
  - destruct (unknown_protocol_is_refused demo_env empty_cache "beep"%string I)
      as (_ & _ & _ & _ & H).
    now rewrite H.
Defined.

(** X4.  More values than the protocol declares arguments: validation of
    the command raises the error of [args_to_dict] wrapped with the
    signature of the protocol and the command as received, with no
    argument name, whatever the values are; the cache is left as it
    was. *)
Theorem too_many_arguments_are_refused :
  forall env (c : PROTO_CACHE_t) defs N S pd args,
    PROTO_DEF c = Some defs ->
    dict_get N defs = Some pd ->
    lower S = N ->
    List.length (proto_args pd) < List.length args ->
    exists signature,
      get_proto_signature env (VStr N) c = (Ok signature, c)
      /\ validate_command env (VStr S, args) c
         = (Raise (Invalid
                     (MsgMalformatted N signature (N, args) None
                        (MsgExpectedMaximum (List.length (proto_args pd)) N))
                     []), c).
Proof.
  intros env c defs N S pd args Hc HN HS Hlen.
  assert (HNN : lower N = N) by (rewrite <- HS; apply lower_idem).
  assert (Hdef : get_proto_def (VStr N) c = (Ok pd, c)).
  { unfold get_proto_def, bindM.
    rewrite (validate_protocol_name_found c defs N N pd Hc HN HNN).
    cbn. rewrite Hc, HN. reflexivity. }
  eexists. split.
  - unfold get_proto_signature, bindM. rewrite Hdef. reflexivity.
  - unfold validate_command.
    rewrite (validate_protocol_name_found c defs N S pd Hc HN HS).
    destruct args as [|a args]; [cbn in Hlen; lia|].
    cbn [vol_Length_min1 prepend both].
    unfold try_except_Invalid, args_to_dict, bindM. rewrite Hdef.
    apply Nat.ltb_lt in Hlen. rewrite Hlen. cbn [raise].
    unfold get_proto_signature, bindM. rewrite Hdef. reflexivity.
Qed.

Lemma too_many_arguments_are_refused_witness :
  exists signature,
    fst (validate_command demo_env
           (VStr "Beep", [VInt 1; VNone; VList []]) beep_cache)
    = Raise (Invalid
               (MsgMalformatted "beep" signature
                  ("beep"%string, [VInt 1; VNone; VList []]) None
                  (MsgExpectedMaximum 2 "beep")) []).
Proof.
  destruct (too_many_arguments_are_refused demo_env beep_cache beep_catalog
              "beep"%string "Beep"%string
              {| proto_desc := VStr "beeper"; proto_type := VStr "IR";
                 proto_link := None; proto_note := None;
                 proto_args := [beep_freq; beep_duration] |}
              [VInt 1; VNone; VList []] eq_refl eq_refl eq_refl)
    as (signature & _ & H); [cbn; lia|].
  exists signature. now rewrite H.
Defined.

(** ** Positional arguments *)

Lemma dict_set_fresh {A : Type} (k : string) (a : A) (d : list (string * A)) :
  ~ In k (map fst d) -> dict_set k a d = d ++ [(k, a)].
Proof.
  induction d as [|[k' a'] d IH]; intros H; cbn; [reflexivity|].
  destruct (String.eqb_spec k k') as [->|_].
  - exfalso. apply H. now left.
  - rewrite IH; [reflexivity|]. intros Hin. apply H. now right.
Qed.

Lemma args_to_dict_loop_combine (declared : list arg_def) :
  forall args result,
    NoDup (map arg_name declared) ->
    (forall k, In k (map arg_name declared) -> ~ In k (map fst result)) ->
    args_to_dict_loop declared args result
    = result ++ combine (map arg_name declared) args.
Proof.
  induction declared as [|d declared IH]; intros args result Hnd Hfresh.
  - destruct args; cbn; now rewrite app_nil_r.
  - destruct args as [|arg args]; cbn [args_to_dict_loop map combine];
      [now rewrite app_nil_r|].
    cbn [map] in Hnd. inversion Hnd as [|x l Hx Hnd']; subst.
    rewrite dict_set_fresh by (apply Hfresh; now left).
    rewrite IH; [now rewrite <- app_assoc | exact Hnd' |].
    intros k Hk Hin. rewrite map_app in Hin. apply in_app_or in Hin.
    destruct Hin as [Hin | [<- | []]].
    + apply (Hfresh k); [now right | exact Hin].
    + contradiction.
Qed.

(** X5.  When the declared argument names are distinct, [args_to_dict]
    pairs the values with the declared names by position: the mapping is
    the zip of the names and the values, in declared order, the names
    beyond the last value absent. *)
Theorem args_to_dict_zips :
  forall env (c : PROTO_CACHE_t) defs N pd args,
    PROTO_DEF c = Some defs ->
    dict_get N defs = Some pd ->
    lower N = N ->
    NoDup (map arg_name (proto_args pd)) ->
    List.length args <= List.length (proto_args pd) ->
    args_to_dict env (VStr N) args c
    = (Ok (combine (map arg_name (proto_args pd)) args), c).
Proof.
  intros env c defs N pd args Hc HN HNN Hnd Hlen.
  assert (Hdef : get_proto_def (VStr N) c = (Ok pd, c)).
  { unfold get_proto_def, bindM.
    rewrite (validate_protocol_name_found c defs N N pd Hc HN HNN).
    cbn. rewrite Hc, HN. reflexivity. }
  unfold args_to_dict, bindM. rewrite Hdef.
  assert (E : (List.length (proto_args pd) <? List.length args)%nat = false)
    by (apply Nat.ltb_ge; lia).
  rewrite E. unfold ret.
  rewrite args_to_dict_loop_combine; [reflexivity | exact Hnd | intros ? _ []].
Qed.

Lemma args_to_dict_zips_witness :
  args_to_dict demo_env (VStr "beep") [VStr "440"] beep_cache
  = (Ok [("freq"%string, VStr "440")], beep_cache).
Proof.
  refine (args_to_dict_zips demo_env beep_cache beep_catalog "beep"%string
            {| proto_desc := VStr "beeper"; proto_type := VStr "IR";
               proto_link := None; proto_note := None;
               proto_args := [beep_freq; beep_duration] |}
            [VStr "440"] eq_refl eq_refl eq_refl _ _).
  - repeat constructor; cbn; intuition discriminate.
  - cbn; lia.
Defined.

(** ** The string and name validators *)

Lemma is_quote_cases (q : ascii) :
  is_quote q = true -> q = dquote \/ q = squote.
Proof.
  unfold is_quote. intros H. apply orb_true_iff in H.
  destruct H as [H|H]; apply Ascii.eqb_eq in H; auto.
Qed.

Lemma lstrip_spaces (ws s : string) :
  string_forall isspace ws = true -> lstrip (ws ++ s) = lstrip s.
Proof.
  induction ws as [|c ws IH]; intros H; [reflexivity|].
  cbn in H. apply andb_true_iff in H. destruct H as [Hc Hw].
  cbn. rewrite Hc. now apply IH.
Qed.

Lemma lstrip_only_spaces (ws : string) :
  string_forall isspace ws = true -> lstrip ws = ""%string.
Proof.
  intros H. rewrite <- (append_empty_r ws). now rewrite lstrip_spaces.
Qed.

Lemma quoted_run_plain (k : string -> bool) (q : ascii) (rest : string) :
  is_quote q = true -> k rest = true ->
  forall body prev,
    string_forall (plain_char q) body = true ->
    Ascii.eqb prev backslash = false ->
    quoted_run k q prev (body ++ String q rest) = Some (body, rest).
Proof.
  intros Hq Hk. induction body as [|c body IH]; intros prev Hb Hp.
  - cbn [append quoted_run]. rewrite Ascii.eqb_refl, Hp, Hk. cbn.
    destruct (is_quote_cases q Hq) as [-> | ->]; reflexivity.
  - cbn in Hb. apply andb_true_iff in Hb. destruct Hb as [Hc Hb].
    unfold plain_char in Hc.
    apply andb_true_iff in Hc. destruct Hc as [Hc Hbs].
    cbn [append quoted_run]. rewrite Hc.
    rewrite (IH c Hb) by now apply negb_true_iff. reflexivity.
Qed.

(** X6.  [string] takes one layer of quotes off: a text that is, between
    optional white space, one quote, a run free of that quote, of
    newlines and of backslashes, and the same quote again, is coerced to
    the run.  A text that does not open with a quote after its leading
    white space is returned as it is, white space included. *)
Theorem string_strips_one_layer :
  forall py_str,
    (forall q ws1 body ws2,
        is_quote q = true ->
        string_forall isspace ws1 = true ->
        string_forall isspace ws2 = true ->
        string_forall (plain_char q) body = true ->
        string_ py_str (VStr (ws1 ++ String q (body ++ String q ws2)))
        = Ok (VStr body))
    /\ (forall s,
          match lstrip s with
          | String c _ => is_quote c = false
          | EmptyString => True
          end ->
          string_ py_str (VStr s) = Ok (VStr s)).
Proof.
  intros py_str. split.
  - intros q ws1 body ws2 Hq H1 H2 Hb. cbn [string_]. unfold re_quote.
    rewrite lstrip_spaces by assumption.
    assert (Hs : isspace q = false)
      by (destruct (is_quote_cases q Hq) as [-> | ->]; reflexivity).
    rewrite lstrip_nonspace by assumption. rewrite Hq.
    rewrite quoted_run_plain; auto.
    + now rewrite lstrip_only_spaces.
    + destruct (is_quote_cases q Hq) as [-> | ->]; reflexivity.
  - intros s H. cbn [string_]. unfold re_quote.
    destruct (lstrip s) as [|c r]; [reflexivity|]. now rewrite H.
Qed.

Lemma string_strips_one_layer_witness :
  string_ (py_str demo_env) (VStr "  'a b, c:d'  ") = Ok (VStr "a b, c:d")
  /\ string_ (py_str demo_env) (VStr " a'b' ") = Ok (VStr " a'b' ").
Proof.
  destruct (string_strips_one_layer (py_str demo_env)) as [H1 H2]. split.
  - apply (H1 squote "  "%string "a b, c:d"%string "  "%string); reflexivity.
  - apply (H2 " a'b' "%string). reflexivity.
Defined.

Lemma binary_string_loop_ok (s : string) :
  string_forall binary_digit s = true -> binary_string_loop s = Ok tt.
Proof.
  induction s as [|c s IH]; intros H; [reflexivity|].
  cbn in H. apply andb_true_iff in H. destruct H as [Hc Hs].
  cbn. unfold binary_digit in Hc. rewrite Hc. cbn. now apply IH.
Qed.

Lemma binary_string_loop_first (pre post : string) (c : ascii) :
  string_forall binary_digit pre = true -> binary_digit c = false ->
  binary_string_loop (pre ++ String c post)
  = Raise (Invalid (MsgBinaryDigit c) []).
Proof.
  intros Hpre Hc. induction pre as [|x pre IH].
  - cbn. unfold binary_digit in Hc. now rewrite Hc.
  - cbn in Hpre. apply andb_true_iff in Hpre. destruct Hpre as [Hx Hpre].
    cbn. unfold binary_digit in Hx. rewrite Hx. cbn. now apply IH.
Qed.

(** X7.  [binary_string] first coerces with [string]; on the text that
    gives, it returns the text when every character is 0 or 1, and
    otherwise fails naming the first character that is neither. *)
Theorem binary_string_names_first_offender :
  forall py_str value body,
    string_ py_str value = Ok (VStr body) ->
    (string_forall binary_digit body = true ->
     binary_string py_str value = Ok (VStr body))
    /\ (forall pre c post,
          body = (pre ++ String c post)%string ->
          string_forall binary_digit pre = true ->
          binary_digit c = false ->
          binary_string py_str value = Raise (Invalid (MsgBinaryDigit c) [])).
Proof.
  intros py_str value body H. unfold binary_string. rewrite H. cbn [bind].
  split.
  - intros Hb. now rewrite binary_string_loop_ok.
  - intros pre c post -> Hpre Hc. now rewrite binary_string_loop_first.
Qed.

Lemma binary_string_names_first_offender_witness :
  binary_string (py_str demo_env) (VStr "'0101'") = Ok (VStr "0101")
  /\ binary_string (py_str demo_env) (VStr "0102")
     = Raise (Invalid (MsgBinaryDigit "2") []).
Proof.
  split.
  - destruct (binary_string_names_first_offender (py_str demo_env)
                (VStr "'0101'") "0101"%string eq_refl) as [H _].
    apply H. reflexivity.
  - destruct (binary_string_names_first_offender (py_str demo_env)
                (VStr "0102") "0102"%string eq_refl) as [_ H].
    apply (H "010"%string "2"%char ""%string); reflexivity.
Defined.

Lemma ident_rest_spec (s : string) :
  ident_rest s = true <->
  string_forall ident_char s = true
  \/ exists core,
      string_forall ident_char core = true
      /\ s = (core ++ String newline "")%string.
Proof.
  induction s as [|c s IH]; cbn [ident_rest string_forall].
  - split; [now left | reflexivity].
  - destruct (ident_char c) eqn:Ec; cbn [andb].
    + rewrite IH. split.
      * intros [H | (core & Hc & ->)]; [now left|].
        right. exists (String c core). cbn. now rewrite Ec, Hc.
      * intros [H | (core & Hc & E)]; [now left|].
        right. destruct core as [|x core]; cbn in E.
        -- injection E as -> _. discriminate Ec.
        -- injection E as -> ->. cbn in Hc.
           apply andb_true_iff in Hc. destruct Hc as [_ Hc]. eauto.
    + split.
      * intros H. apply andb_true_iff in H. destruct H as [Hn He].
        apply Ascii.eqb_eq in Hn. apply String.eqb_eq in He. subst.
        right. exists ""%string. split; reflexivity.
      * intros [H | (core & Hc & E)]; [discriminate|].
        destruct core as [|x core]; cbn in E.
        -- injection E as -> <-.
           now rewrite Ascii.eqb_refl, String.eqb_refl.
        -- injection E as -> _. cbn in Hc. rewrite Ec in Hc. discriminate.
Qed.

(** X8.  [valid_name] accepts a string exactly when it is an identifier,
    or an identifier followed by one newline (the end anchor of the
    pattern also matches before a final newline); it returns the string
    as it is, newline included. *)
Theorem valid_name_accepts_identifiers :
  forall s,
    (valid_name (VStr s) = Ok (VStr s) <->
     is_identifier s = true
     \/ exists core,
         is_identifier core = true
         /\ s = (core ++ String newline "")%string)
    /\ (forall v, valid_name (VStr s) = Ok v -> v = VStr s).
Proof.
  intros s. unfold valid_name. cbn [string_strict bind].
  assert (E : re_identifier s = true <->
              is_identifier s = true
              \/ exists core,
                  is_identifier core = true
                  /\ s = (core ++ String newline "")%string).
  { destruct s as [|c s]; cbn [re_identifier is_identifier].
    - split; [discriminate|].
      intros [H | (core & Hc & E)]; [discriminate|].
      destruct core; [discriminate Hc | discriminate E].
    - rewrite andb_true_iff, ident_rest_spec. split.
      + intros [Hs [H | (core & Hc & ->)]].
        * left. now rewrite Hs, H.
        * right. exists (String c core). cbn. now rewrite Hs, Hc.
      + intros [H | (core & Hc & E)].
        * apply andb_true_iff in H. destruct H as [Hs H]. auto.
        * destruct core as [|x core]; [discriminate Hc|].
          cbn in E. injection E as -> ->. cbn in Hc.
          apply andb_true_iff in Hc. destruct Hc as [Hs Hc].
          split; [exact Hs|]. right. eauto. }
  split.
  - split.
    + intros H. apply E.
      destruct (re_identifier s); [reflexivity | discriminate H].
    + intros H. apply E in H. now rewrite H.
  - intros v H. destruct (re_identifier s); [congruence | discriminate H].
Qed.

Lemma valid_name_accepts_identifiers_witness :
  valid_name (VStr ("raw_2" ++ String newline ""))
  = Ok (VStr ("raw_2" ++ String newline "")).
Proof.
  apply (proj1 (valid_name_accepts_identifiers
                  ("raw_2" ++ String newline "")%string)).
  right. exists "raw_2"%string. split; reflexivity.
Defined.

(** ** Integer coercion, again *)

Lemma integer_ok_int (v w : pyval) :
  integer v = Ok w -> exists z, as_int w = Some z.
Proof.
  destruct v; cbn; try discriminate.
  - intros H. injection H as <-. eexists; reflexivity.
  - intros H. injection H as <-. eexists; reflexivity.
  - destruct (int_of_float f); cbn; [|discriminate].
    destruct (float_is_integral f); [|discriminate].
    intros H. injection H as <-. eexists; reflexivity.
  - destruct (py_int _ _); [|discriminate].
    intros H. injection H as <-. eexists; reflexivity.
Qed.

(** X9.  What an integer rule returns is a fixed point of the rule:
    validating a coerced value again returns it unchanged.  A default is
    validated at each command, so this is what keeps an integer default
    stable. *)
Theorem integer_range_idempotent :
  forall lo hi v v',
    integer_range (Some lo) (Some hi) v = Ok v' ->
    integer_range (Some lo) (Some hi) v' = Ok v'.
Proof.
  intros lo hi v v' H. unfold integer_range, vol_All in H.
  destruct (integer v) as [w|e] eqn:E; [|destruct e; discriminate].
  cbn [prepend bind] in H.
  destruct (integer_ok_int _ _ E) as [z Hz].
  destruct (vol_Range (Some lo) (Some hi) w) as [w'|e] eqn:R;
    [|destruct e; discriminate].
  cbn [prepend bind] in H. injection H as <-.
  unfold vol_Range in R. rewrite Hz in R.
  destruct (negb (lo <=? z)%Z) eqn:L; [discriminate|].
  destruct (negb (z <=? hi)%Z) eqn:U; [discriminate|].
  injection R as <-.
  rewrite (integer_range_int lo hi w z Hz).
  apply negb_false_iff in L, U. apply Z.leb_le in L, U.
  destruct (Z.ltb_spec z lo); [lia|].
  destruct (Z.ltb_spec hi z); [lia | reflexivity].
Qed.

Lemma integer_range_idempotent_witness :
  integer_range (Some 0%Z) (Some 255%Z) (VInt 255) = Ok (VInt 255).
Proof.
  apply (integer_range_idempotent 0%Z 255%Z (VStr "0xFF") (VInt 255)).
  reflexivity.
Defined.

(** ** Declared types *)

Lemma CPP_TYPES_names (env : python) (name : string) (t : validator) :
  CPP_TYPES env name = Some t -> In name CPP_TYPE_NAMES.
Proof.
  unfold CPP_TYPES, CPP_TYPE_NAMES. intros H.
  repeat match type of H with
         | (if String.eqb name ?x then _ else _) = _ =>
             destruct (String.eqb_spec name x) as [->|_]; [cbn; tauto|]
         end.
  discriminate H.
Qed.

Lemma take_length_append (s t : string) : take (String.length s) (s ++ t) = s.
Proof.
  induction s as [|c s IH]; cbn [append String.length];
    [destruct t; reflexivity | cbn; now rewrite IH].
Qed.

Lemma drop_length_append (s t : string) : drop (String.length s) (s ++ t) = t.
Proof.
  induction s as [|c s IH]; cbn [append String.length];
    [destruct t; reflexivity | exact IH].
Qed.

Lemma array_suffix (name : string) :
  last2 (name ++ "[]") = "[]"%string /\ but_last2 (name ++ "[]") = name.
Proof.
  unfold last2, but_last2. rewrite length_append. cbn [String.length].
  replace (String.length name + 2 - 2) with (String.length name) by lia.
  split; [apply drop_length_append | apply take_length_append].
Qed.


(** X10.  The types the catalog schema lets through are exactly the types
    the schema compiler can resolve: [type_validator] finds a rule for a
    declared type if and only if the type is in [VALID_TYPES], so a
    definition that passed the type check never makes
    [generate_arg_schema] miss a key of [CPP_TYPES]. *)
Theorem type_resolves_iff_valid :
  forall env ty,
    is_ok (type_validator env ty) = true <-> In ty VALID_TYPES.
Proof.
  intros env ty. split.
  - unfold type_validator, VALID_TYPES. intros H. apply in_or_app.
    destruct (String.eqb_spec (last2 ty) "[]") as [E|_].
    + right. destruct (CPP_TYPES env (but_last2 ty)) as [t|] eqn:C;
        [|discriminate].
      apply CPP_TYPES_names in C.
      assert (Hty : ty = (but_last2 ty ++ "[]")%string).
      { rewrite <- E. unfold but_last2, last2. symmetry. apply take_drop. }
      rewrite Hty.
      apply (in_map (fun t => (t ++ "[]")%string)) in C. exact C.
    + left. destruct (CPP_TYPES env ty) as [t|] eqn:C; [|discriminate].
      now apply CPP_TYPES_names in C.
  - intros H. cbn in H.
    repeat (destruct H as [<- | H]; [reflexivity|]). contradiction.
Qed.

Lemma type_resolves_iff_valid_witness :
  is_ok (type_validator demo_env "string[]") = true
  /\ In "uint8_t"%string VALID_TYPES.
Proof.
  split.
  - apply (proj2 (type_resolves_iff_valid demo_env "string[]"%string)).
    cbn. tauto.
  - apply (proj1 (type_resolves_iff_valid demo_env "uint8_t"%string)).
    reflexivity.
Defined.

Lemma visit_all_ok {A B : Type} (f : nat -> A -> result B) (g : A -> result B)
  (l : list A) (bs : list B) :
  (forall j x y, g x = Ok y -> f j x = Ok y) ->
  Forall2 (fun x y => g x = Ok y) l bs ->
  forall i out, visit f i l None out = Ok (out ++ bs).
Proof.
  intros Hf. induction 1 as [|x y l bs Hxy Hall IH]; intros i out; cbn [visit].
  - now rewrite app_nil_r.
  - rewrite (Hf i x y Hxy), IH, <- app_assoc. reflexivity.
Qed.

Lemma vol_list_elementwise (t : validator) (l out : list pyval) :
  vol_list t (VList l) = Ok (VList out)
  <-> Forall2 (fun x y => t x = Ok y) l out.
Proof.
  unfold vol_list. split.
  - intros H.
    destruct (visit _ 0 l None []) as [res|] eqn:V; [|discriminate].
    cbn [bind] in H. injection H as <-.
    apply visit_ok in V. destruct V as (_ & bs & -> & Hall). cbn [app].
    clear -Hall. induction Hall as [|x y l bs [j Hj] Hall IH]; constructor;
      [now apply prepend_ok in Hj | exact IH].
  - intros H.
    rewrite (visit_all_ok _ t l out); [reflexivity | | exact H].
    intros j x y Hxy. now rewrite Hxy.
Qed.

(** X11.  For every scalar type of the catalog, the type followed by [[]]
    resolves to a list validator over the rule of the scalar: null gives
    the empty list; a string is cut at its commas by the tokenizer and
    validated as the list of its tokens; a list passes exactly when each
    of its members passes the rule of the scalar, and the result is the
    list of the coerced members. *)
Theorem array_type_validates_members :
  forall env name t,
    CPP_TYPES env name = Some t ->
    exists f,
      type_validator env (name ++ "[]") = Ok f
      /\ f VNone = Ok (VList [])
      /\ (forall s, f (VStr s) = f (VList (map VStr (quoted_split s ","))))
      /\ (forall l out,
             f (VList l) = Ok (VList out)
             <-> Forall2 (fun x y => t x = Ok y) l out).
Proof.
  intros env name t Ht. unfold type_validator.
  destruct (array_suffix name) as [-> ->]. rewrite Ht. cbn [String.eqb].
  eexists. split; [reflexivity|]. repeat split.
  - intros H. apply vol_list_elementwise.
    cbn [vol_All coerce_list prepend bind] in H.
    destruct (vol_list t (VList l)) as [v|e]; [|destruct e; discriminate].
    cbn [prepend bind] in H. congruence.
  - intros H. apply vol_list_elementwise in H.
    cbn [vol_All coerce_list prepend bind]. now rewrite H.
Qed.

Lemma array_type_validates_members_witness :
  exists f,
    type_validator demo_env "uint8_t[]" = Ok f
    /\ f (VStr "1, 0x10 ,255") = Ok (VList [VInt 1; VInt 16; VInt 255]).
Proof.
  destruct (array_type_validates_members demo_env "uint8_t"%string
              (integer_range (Some 0%Z) (Some 255%Z)) eq_refl)
    as (f & Hf & _ & Hs & Hl).
  exists f. split; [exact Hf|]. rewrite Hs. apply Hl.
  repeat constructor.
Defined.

(** ** What loading guarantees *)

Lemma valid_name_ok (n : string) (v : pyval) :
  valid_name (VStr n) = Ok v -> re_identifier n = true.
Proof.
  unfold valid_name. cbn. destruct (re_identifier n); [reflexivity | discriminate].
Qed.

Lemma vol_Any_literal_ok (choices : list string) (v w : pyval) :
  vol_Any_literal choices v = Ok w -> exists s, v = VStr s /\ In s choices.
Proof.
  destruct v; try discriminate. cbn.
  destruct (existsb (String.eqb s) choices) eqn:E; [|discriminate].
  intros _. exists s. split; [reflexivity|].
  apply existsb_exists in E. destruct E as (x & Hx & E).
  apply String.eqb_eq in E. now subst.
Qed.

Lemma SCHEMA_SCHEMA_wf (items out : list (string * pyval)) :
  SCHEMA_SCHEMA items = Ok out ->
  forall cv a,
    In (cv, a) items -> In cv SCHEMA_VALIDATOR_NAMES /\ is_params a = true.
Proof.
  unfold SCHEMA_SCHEMA. intros H cv a Hin.
  apply visit_ok in H. destruct H as (_ & bs & _ & Hall).
  destruct (Forall2_in_left _ _ _ _ Hall Hin) as (b & _ & j & Hj).
  cbv beta iota in Hj.
  destruct (existsb (String.eqb cv) SCHEMA_VALIDATOR_NAMES) eqn:E;
    [|discriminate Hj].
  split.
  - apply existsb_exists in E. destruct E as (x & Hx & E).
    apply String.eqb_eq in E. now subst.
  - destruct a; try discriminate Hj; reflexivity.
Qed.

Lemma ARGS_SCHEMA_wf (env : python) (arg a1 : arg_def) :
  ARGS_SCHEMA env arg = Ok a1 -> well_formed_arg arg.
Proof.
  unfold ARGS_SCHEMA, well_formed_arg, schema_items_of. intros H.
  destruct (both _ _) as [checked|] eqn:E; [|discriminate]. clear H.
  destruct checked as (n & t & desc & default & example & schema).
  apply both_ok in E. destruct E as (Hn & E).
  apply both_ok in E. destruct E as (Ht & E).
  apply both_ok in E. destruct E as (_ & E).
  apply both_ok in E. destruct E as (_ & E).
  apply both_ok in E. destruct E as (_ & Hs).
  apply prepend_ok, valid_name_ok in Hn.
  apply prepend_ok, vol_Any_literal_ok in Ht.
  destruct Ht as (ty & Hty & Hin). injection Hty as <-.
  apply prepend_ok in Hs.
  repeat split; try assumption;
    destruct (arg_schema arg) as [items|]; try contradiction;
    cbn in Hs;
    (destruct (SCHEMA_SCHEMA items) as [out|] eqn:S; [|discriminate Hs]);
    now apply (SCHEMA_SCHEMA_wf _ _ S cv a).
Qed.

Lemma PROTOCOL_DEF_SCHEMA_wf (env : python) (p p' : proto_def) :
  PROTOCOL_DEF_SCHEMA env p = Ok p' ->
  In (proto_type p) [VStr "IR"; VStr "RF"; VStr "IR/RF"]
  /\ proto_args p <> [].
Proof.
  unfold PROTOCOL_DEF_SCHEMA. intros H.
  destruct (both _ _) as [checked|] eqn:E; [|discriminate]. clear H.
  destruct checked as (desc & t & link & note & args).
  apply both_ok in E. destruct E as (_ & E).
  apply both_ok in E. destruct E as (Ht & E).
  apply both_ok in E. destruct E as (_ & E).
  apply both_ok in E. destruct E as (_ & E).
  apply prepend_ok in E. apply prepend_ok, vol_Any_literal_ok in Ht.
  destruct Ht as (ty & -> & Hin). split.
  - cbn in Hin. cbn. intuition (subst; auto).
  - intros Hnil. rewrite Hnil in E. discriminate E.
Qed.

Lemma PROTOCOLS_SCHEMA_names (env : python) (value out : catalog) :
  PROTOCOLS_SCHEMA env value = Ok out ->
  forall name pd, In (name, pd) value -> re_identifier name = true.
Proof.
  unfold PROTOCOLS_SCHEMA. intros H name pd Hin.
  apply visit_ok in H. destruct H as (_ & bs & _ & Hall).
  destruct (Forall2_in_left _ _ _ _ Hall Hin) as (b & _ & j & Hj).
  cbv beta iota in Hj.
  destruct (valid_name (VStr name)) as [v|] eqn:V; [|discriminate Hj].
  now apply valid_name_ok in V.
Qed.

(** X12.  A catalog that loads is the parsed file itself, and each of its
    protocols has an identifier for name, one of the three categories, at
    least one argument, distinct argument names, and for each argument an
    identifier name, a type of [VALID_TYPES] and constraints that are
    entries of [SCHEMA_VALIDATORS] with parameters that are null, a list
    or a mapping. *)
Theorem loaded_catalog_is_well_formed :
  forall env proto_yaml defs,
    load_protocols env proto_yaml = Ok defs ->
    defs = proto_yaml
    /\ forall name pd, In (name, pd) proto_yaml -> well_formed_proto name pd.
Proof.
  intros env proto_yaml defs H.
  destruct (load_protocols_ok _ _ _ H) as [-> Hok]. split; [reflexivity|].
  intros name pd Hin. unfold load_protocols in H.
  destruct (PROTOCOLS_SCHEMA env proto_yaml) as [out|] eqn:E; [|discriminate].
  destruct (PROTOCOLS_SCHEMA_ok _ _ _ E _ _ Hin) as [p' Hp'].
  destruct (PROTOCOL_DEF_SCHEMA_wf _ _ _ Hp') as [Hty Hne].
  destruct (PROTOCOL_DEF_SCHEMA_ok _ _ _ Hp') as [Hnd Hargs].
  repeat split; try assumption.
  - exact (PROTOCOLS_SCHEMA_names _ _ _ E _ _ Hin).
  - apply Forall_forall. intros arg Harg.
    destruct (Hargs arg Harg) as [a1 Ha1]. exact (ARGS_SCHEMA_wf _ _ _ Ha1).
Qed.

Lemma loaded_catalog_is_well_formed_witness :
  well_formed_proto "pulse" pulse_def.
Proof.
  refine (proj2 (loaded_catalog_is_well_formed demo_env pulse_catalog
                   pulse_catalog eq_refl) "pulse"%string pulse_def _).
  left. reflexivity.
Defined.

(** ** Initialization after a successful load *)








(** ** The shape of a validated command *)

Lemma dict_to_list_length (keys : list string) (value : list (string * pyval)) :
  forall l, dict_to_list keys value = Ok l -> List.length l = List.length keys.
Proof.
  induction keys as [|k keys IH]; intros l H; cbn in H.
  - now injection H as <-.
  - destruct (dict_get k value); [|discriminate].
    destruct (dict_to_list keys value) as [l'|]; [|discriminate].
    cbn in H. injection H as <-. cbn. f_equal. now apply IH.
Qed.

Lemma run_proto_schema_length (sch : proto_schema)
  (args : list (string * pyval)) (out : list pyval) :
  run_proto_schema sch args = Ok out ->
  List.length out = List.length (schema_names sch).
Proof.
  unfold run_proto_schema. intros H.
  destruct (visit _ 0 _ None []) as [o|]; [|discriminate]. cbn [bind] in H.
  destruct (missing_required _ _); [discriminate|].
  now apply dict_to_list_length in H.
Qed.

Lemma dict_in_get {A : Type} (k : string) (d : list (string * A)) :
  dict_in k d = true -> exists a, dict_get k d = Some a.
Proof. unfold dict_in. destruct (dict_get k d); [eauto | discriminate]. Qed.

Lemma dict_get_key {A : Type} (k : string) (d : list (string * A)) (a : A) :
  dict_get k d = Some a -> In k (map fst d).
Proof.
  induction d as [|[k' a'] d IH]; cbn; [discriminate|].
  destruct (String.eqb_spec k k') as [->|_]; [now left | right; auto].
Qed.

Lemma in_map_fst {A B : Type} (k : A) (d : list (A * B)) :
  In k (map fst d) -> exists a, In (k, a) d.
Proof.
  induction d as [|[k' a'] d IH]; cbn; [contradiction|].
  intros [<- | H]; [eauto|]. destruct (IH H) as [a Ha]. eauto.
Qed.

Lemma validate_protocol_name_ok (p : pyval) (c c' : PROTO_CACHE_t) (n : string) :
  validate_protocol_name p c = (Ok n, c') ->
  exists defs pd,
    PROTO_DEF c = Some defs /\ dict_get n defs = Some pd /\ lower n = n.
Proof.
  unfold validate_protocol_name, bindM, lift, get, ret, raise.
  destruct p; cbn; try discriminate.
  destruct (PROTO_DEF c) as [defs|]; [|discriminate].
  destruct (dict_in (lower s) defs) eqn:E; [|discriminate].
  intros H. injection H as <- _.
  destruct (dict_in_get _ _ E) as [pd Hpd].
  exists defs, pd. repeat split; [exact Hpd | apply lower_idem].
Qed.

Lemma validate_command_ok (env : python) (p : pyval) (args : list pyval)
  (c c2 : PROTO_CACHE_t) (n : pyval) (out : list pyval) :
  validate_command env (p, args) c = (Ok (n, out), c2) ->
  exists name defs pd schemas sch,
    n = VStr name
    /\ PROTO_DEF c = Some defs /\ dict_get name defs = Some pd
    /\ args <> []
    /\ List.length args <= List.length (proto_args pd)
    /\ PROTO_SCHEMA c = Some schemas /\ dict_get name schemas = Some sch
    /\ run_proto_schema sch (args_to_dict_loop (proto_args pd) args []) = Ok out.
Proof.
  unfold validate_command. intros H.
  pose proof (validate_protocol_name_frame p c) as Hc.
  destruct (validate_protocol_name p c) as [[name|e] c1] eqn:V;
    cbn [snd] in Hc; subst c1.
  - destruct (validate_protocol_name_ok _ _ _ _ V) as (defs & pd & Hd & Hg & Hl).
    assert (Hdef : get_proto_def (VStr name) c = (Ok pd, c)).
    { unfold get_proto_def, bindM.
      rewrite (validate_protocol_name_found c defs name name pd Hd Hg Hl).
      cbn. rewrite Hd, Hg. reflexivity. }
    destruct args as [|a args]; [discriminate H|].
    cbn [vol_Length_min1 prepend both] in H.
    unfold try_except_Invalid, args_to_dict, bindM in H. rewrite Hdef in H.
    destruct (List.length (proto_args pd) <? List.length (a :: args))%nat eqn:L.
    + cbn [raise] in H. unfold get_proto_signature, bindM in H.
      rewrite Hdef in H. discriminate H.
    + unfold ret, get in H.
      destruct (PROTO_SCHEMA c) as [schemas|] eqn:Es; [|discriminate H].
      destruct (dict_get name schemas) as [sch|] eqn:Eg; [|discriminate H].
      unfold lift in H.
      destruct (run_proto_schema sch _) as [out'|e] eqn:R.
      * injection H as <- <- <-.
        exists name, defs, pd, schemas, sch.
        apply Nat.ltb_ge in L.
        repeat split; try assumption; try reflexivity; try discriminate.
      * destruct e; try discriminate H.
        unfold get_proto_signature, bindM in H. rewrite Hdef in H.
        discriminate H.
  - destruct e, args; discriminate H.
Qed.

(** X14.  A command that validates against an initialized cache names a
    protocol of the catalog file, came with at least one value and at
    most as many values as the protocol declares arguments, and carries
    exactly one coerced value for each declared argument. *)
Theorem validated_command_has_declared_length :
  forall env (proto_yaml : parsed_file) (c0 c1 c2 : PROTO_CACHE_t) p args n out,
    NoDup (map fst proto_yaml) ->
    initialize env proto_yaml c0 = (Ok tt, c1) ->
    validate_command env (p, args) c1 = (Ok (n, out), c2) ->
    exists name pd,
      n = VStr name
      /\ In (name, pd) proto_yaml
      /\ List.length out = List.length (proto_args pd)
      /\ 1 <= List.length args <= List.length (proto_args pd).
Proof.
  intros env proto_yaml c0 c1 c2 p args n out Hnd Hinit Hval.
  apply validate_command_ok in Hval.
  destruct Hval as (name & defs & stored & schemas & sch & -> & Hd & Hg & Hne
                    & Hlen & Hs & Hgs & Hrun).
  pose proof (installed_schema env proto_yaml c0 c1 Hnd Hinit) as Hinst.
  apply initialize_ok in Hinit.
  destruct Hinit as (_ & schemas' & defs' & Hgen & ->).
  cbn in Hd, Hs. injection Hd as <-. injection Hs as <-.
  pose proof (generate_protos_names env proto_yaml) as Hnames.
  rewrite Hgen in Hnames. cbn [snd] in Hnames.
  pose proof (dict_get_key _ _ _ Hg) as Hkey. rewrite Hnames in Hkey.
  destruct (in_map_fst _ _ Hkey) as [pd Hin].
  destruct (generate_protos_stored env proto_yaml Hnd name pd Hin)
    as (stored' & Hst & Hdefs).
  rewrite Hgen in Hst. cbn [snd] in Hst.
  rewrite Hg in Hst. injection Hst as <-.
  destruct (Hinst name pd Hin) as (schemas'' & sch' & Hs' & Hgs' & Hn' & _).
  cbn in Hs'. injection Hs' as <-.
  rewrite Hgs in Hgs'. injection Hgs' as <-.
  apply run_proto_schema_length in Hrun.
  apply (f_equal (@List.length _)) in Hdefs. rewrite !length_map in Hdefs.
  exists name, pd. repeat split; try assumption.
  - now rewrite Hrun, Hn', length_map.
  - destruct args; [congruence | cbn; lia].
  - lia.
Qed.

Lemma validated_command_has_declared_length_witness :
  exists name pd,
    VStr "beep" = VStr name
    /\ In (name, pd) beep_catalog
    /\ List.length [VInt 440; VInt 100] = List.length (proto_args pd)
    /\ 1 <= List.length [VStr "440"] <= List.length (proto_args pd).
Proof.
  refine (validated_command_has_declared_length demo_env beep_catalog
            empty_cache beep_cache beep_cache (VStr "BEEP") [VStr "440"]
            (VStr "beep") [VInt 440; VInt 100] _ eq_refl eq_refl).
  repeat constructor. intros [].
Defined.

(** ** What compiling does to the definitions *)

Lemma dict_get_del {A : Type} (k : string) (d : list (string * A)) :
  NoDup (map fst d) -> dict_get k (dict_del k d) = None.
Proof.
  induction d as [|[k' a] d IH]; intros Hnd; [reflexivity|].
  cbn [map fst] in Hnd. inversion Hnd as [|x l Hx Hnd']; subst.
  cbn [dict_del]. destruct (String.eqb_spec k k') as [->|Hk].
  - destruct (dict_get k' d) as [a'|] eqn:E; [|reflexivity].
    apply dict_get_key in E. contradiction.
  - cbn [dict_get]. destruct (String.eqb_spec k k'); [contradiction|].
    now apply IH.
Qed.

(** X15.  Compiling a constraint whose parameters are a mapping with a
    positional list under [args] calls the constraint with that list and
    the other keys, and removes [args] from the mapping of the definition;
    compiling the definition it leaves behind calls the constraint with no
    positional parameter at all. *)
Theorem compiling_consumes_positional_parameters :
  forall env cv sv d l,
    SCHEMA_VALIDATORS env cv = Some sv ->
    NoDup (map fst d) ->
    dict_get "args" d = Some (VList l) ->
    extra_validator env cv (VDict d)
    = (f <- called sv l (dict_del "args" d) ;; Ok (Some f),
       VDict (dict_del "args" d))
    /\ fst (extra_validator env cv (snd (extra_validator env cv (VDict d))))
       = (f <- called sv [] (dict_del "args" d) ;; Ok (Some f)).
Proof.
  intros env cv sv d l Hsv Hnd Hargs.
  assert (E : extra_validator env cv (VDict d)
              = (f <- called sv l (dict_del "args" d) ;; Ok (Some f),
                 VDict (dict_del "args" d)))
    by (unfold extra_validator; now rewrite Hargs, Hsv).
  split; [exact E|]. rewrite E. cbn [snd]. unfold extra_validator.
  now rewrite (dict_get_del "args" d Hnd), Hsv.
Qed.

Lemma compiling_consumes_positional_parameters_witness :
  (exists f,
      fst (extra_validator demo_env "Range"
             (VDict [("args"%string, VList [VInt 0; VInt 10])])) = Ok (Some f)
      /\ f (VInt 200) = Raise (Invalid (MsgAtMost 10) []))
  /\ (exists f,
        fst (extra_validator demo_env "Range"
               (snd (extra_validator demo_env "Range"
                       (VDict [("args"%string, VList [VInt 0; VInt 10])]))))
        = Ok (Some f)
        /\ f (VInt 200) = Ok (VInt 200)).
Proof.
  destruct (compiling_consumes_positional_parameters demo_env "Range"%string
              {| as_validator := vol_class demo_env "Range";
                 called := py_call demo_env "Range" |}
              [("args"%string, VList [VInt 0; VInt 10])] [VInt 0; VInt 10]
              eq_refl) as [H1 H2]; [repeat constructor; intros [] | reflexivity |].
  split.
  - rewrite H1. eexists. split; reflexivity.
  - rewrite H2. eexists. split; reflexivity.
Defined.

(** ** Initialization and the earlier cache *)

(** X16.  A successful initialization builds the whole cache from the
    catalog file: the result does not depend on what the cache held, so
    initializing again with the same file gives the same cache.  When the
    file loads but the schema compiler raises, the definitions of the
    cache have been replaced while the schemas and the list of names are
    those of before. *)
Theorem initialize_replaces_the_cache :
  forall env proto_yaml (c0 : PROTO_CACHE_t),
    (forall c1 c0',
        initialize env proto_yaml c0 = (Ok tt, c1) ->
        initialize env proto_yaml c0' = (Ok tt, c1))
    /\ (forall e c1 defs,
          load_protocols env proto_yaml = Ok defs ->
          initialize env proto_yaml c0 = (Raise e, c1) ->
          PROTO_DEF c1 = Some (snd (generate_proto_schema env proto_yaml))
          /\ PROTO_SCHEMA c1 = PROTO_SCHEMA c0
          /\ VALID_PROTOCOLS c1 = VALID_PROTOCOLS c0).
Proof.
  intros env proto_yaml c0. split.
  - intros c1 c0' H. apply initialize_ok in H.
    destruct H as (Hload & schemas & defs' & Hgen & ->).
    unfold initialize, bindM, lift, get, put. rewrite Hload, Hgen. reflexivity.
  - intros e c1 defs Hload H.
    destruct (load_protocols_ok _ _ _ Hload) as [-> _].
    unfold initialize, bindM, lift, get, put in H. rewrite Hload in H.
    destruct (generate_proto_schema env proto_yaml) as [[schemas|e'] defs'];
      [discriminate H|].
    cbn in H. injection H as _ <-. repeat split.
Qed.

Lemma initialize_replaces_the_cache_witness :
  initialize demo_env beep_catalog hex_cache = (Ok tt, beep_cache)
  /\ PROTO_SCHEMA (snd (initialize refusing_env plain_catalog beep_cache))
     = PROTO_SCHEMA beep_cache.
Proof.
  split.
  - apply (proj1 (initialize_replaces_the_cache demo_env beep_catalog
                    empty_cache) beep_cache hex_cache).
    reflexivity.
  - apply (proj2 (initialize_replaces_the_cache refusing_env plain_catalog
                    beep_cache) TypeError
             (snd (initialize refusing_env plain_catalog beep_cache))
             plain_catalog); reflexivity.
Defined.
